(** * Test coverage model of the testing contribution (testCoverage.ts and
    the coverage bars of testCoverageBars.ts).

    JavaScript numbers that hold coverage fractions are modelled as exact
    rationals [Q]; counts are natural numbers. *)

From Stdlib Require Import Bool Arith Lia ZArith QArith Qround Qminmax Lqa List.
From Stdlib Require Import Strings.Ascii Strings.String Numbers.DecimalString.
Import ListNotations.
Open Scope string_scope.
Set Warnings "-register-all".

(* ------------------------------------------------------------------ *)
(** ** Data model (testTypes.ts / testCoverage.ts) *)

(** [ICoveredCount] *)
Record ICoveredCount := mkCount { covered : nat; total : nat }.

(** [emptyCounts()] *)
Definition emptyCounts : ICoveredCount := mkCount 0 0.

(** [sumCounts(target, src)] adds [src] into [target] in place; the model
    returns the updated target. *)
Definition sumCounts (target src : ICoveredCount) : ICoveredCount :=
  mkCount (covered target + covered src) (total target + total src).

(** [URI]: only its three components used here. *)
Record URI := mkURI { scheme : string; authority : string; path : string }.

(** Fine-grained per-line detail; its shape does not matter here. *)
Record CoverageDetails := mkDetail { detail_line : nat; detail_count : nat }.

(** [IFileCoverage], as provided by the extension. *)
Record IFileCoverage := mkFileCoverage {
  file_uri : URI;
  file_statement : ICoveredCount;
  file_branch : option ICoveredCount;
  file_function : option ICoveredCount;
  file_details : option (list CoverageDetails)
}.

(** Fields of [AbstractFileCoverage]. *)
Record AbstractFileCoverage := mkAbstract {
  uri : URI;
  statement : ICoveredCount;
  branch : option ICoveredCount;
  function : option ICoveredCount
}.

(** [new AbstractFileCoverage(coverage)]:
<<
    this.uri = URI.revive(coverage.uri);
    this.statement = coverage.statement;
    this.branch = coverage.branch;
    this.function = coverage.branch;
>> *)
Definition newAbstractFileCoverage (coverage : IFileCoverage) : AbstractFileCoverage :=
  {| uri := file_uri coverage;
     statement := file_statement coverage;
     branch := file_branch coverage;
     function := file_branch coverage |}.

(** [FileCoverage]: a leaf; [_details] is either a plain array given by the
    provider, or the promise of a resolution (see [CachedPromise]). *)
Record FileCoverage := mkLeaf {
  leaf_base : AbstractFileCoverage;
  leaf_index : nat;
  leaf_initial_details : option (list CoverageDetails)
}.

(** [new FileCoverage(coverage, index, accessor)] *)
Definition newFileCoverage (coverage : IFileCoverage) (index : nat) : FileCoverage :=
  {| leaf_base := newAbstractFileCoverage coverage;
     leaf_index := index;
     leaf_initial_details := file_details coverage |}.

(** Tree values: [FileCoverage | ComputedFileCoverage]. *)
Inductive CoverageNode :=
| Leaf (f : FileCoverage)
| Computed (c : AbstractFileCoverage).

Definition node_coverage (n : CoverageNode) : AbstractFileCoverage :=
  match n with Leaf f => leaf_base f | Computed c => c end.

(* ------------------------------------------------------------------ *)
(** ** Numbers *)

Definition nat_to_Q (n : nat) : Q := inject_Z (Z.of_nat n).

(** JavaScript [a < b] on numbers. *)
Definition Qlt_bool (x y : Q) : bool := negb (Qle_bool y x).

(** [get tpc()] *)
Definition tpc (c : AbstractFileCoverage) : Q :=
  let numerator := covered (statement c) in
  let denominator := total (statement c) in
  let '(numerator, denominator) :=
    match branch c with
    | Some b => (numerator + covered b, denominator + total b)%nat
    | None => (numerator, denominator)
    end in
  let '(numerator, denominator) :=
    match function c with
    | Some f => (numerator + covered f, denominator + total f)%nat
    | None => (numerator, denominator)
    end in
  if Nat.eqb denominator 0 then 1%Q else (nat_to_Q numerator / nat_to_Q denominator)%Q.

(** [const percent = (cc) => cc.total === 0 ? 1 : cc.covered / cc.total] *)
Definition percent (cc : ICoveredCount) : Q :=
  if Nat.eqb (total cc) 0 then 1%Q else (nat_to_Q (covered cc) / nat_to_Q (total cc))%Q.

(** [TestingDisplayedCoveragePercent] *)
Inductive TestingDisplayedCoveragePercent := Statement | Minimum | TotalCoverage.

(** [calculateDisplayedStat]; the [assertNever] default is unreachable for
    the three-valued enumeration. *)
Definition calculateDisplayedStat (coverage : AbstractFileCoverage)
    (method : TestingDisplayedCoveragePercent) : Q :=
  match method with
  | Statement => percent (statement coverage)
  | Minimum =>
      let value := percent (statement coverage) in
      let value := match branch coverage with
                   | Some b => Qmin value (percent b) | None => value end in
      let value := match function coverage with
                   | Some f => Qmin value (percent f) | None => value end in
      value
  | TotalCoverage => tpc coverage
  end.

(** [Number.prototype.toFixed(f)] (ECMA-262 21.1.3.3) on values of magnitude
    below 10^21: the integer n with n / 10^f closest to x, the larger one on a
    tie, written with f digits after the point. *)
Definition Z_to_string (z : Z) : string := NilEmpty.string_of_int (Z.to_int z).

Definition toFixed (x : Q) (f : nat) : string :=
  let s := if Qlt_bool x 0 then "-" else "" in
  let ax := if Qlt_bool x 0 then Qopp x else x in
  let n := Qfloor (ax * inject_Z (10 ^ Z.of_nat f) + (1 # 2)) in
  let m := Z_to_string n in
  if Nat.eqb f 0 then s ++ m else
  let m := if Nat.leb (String.length m) f
           then String.append (String.concat "" (List.repeat "0" (S f - String.length m))) m
           else m in
  let k := String.length m in
  s ++ String.substring 0 (k - f) m ++ "." ++ String.substring (k - f) f m.

Definition precision : nat := 2.
(** [const epsilon = 10e-8] *)
Definition epsilon : Q := 10 # 100000000.

(** [displayPercent] *)
Definition displayPercent (value : Q) : string :=
  let display := toFixed (value * 100) precision in
  if Qlt_bool value (1 - epsilon) && String.eqb display "100"
  then "99.99%"
  else display ++ "%".

(* ------------------------------------------------------------------ *)
(** ** Prefix tree (prefixTree.ts) *)

(** Modelled from the spec: [WellDefinedPrefixTree] / [IPrefixTreeNode]
    (prefixTree.ts is not part of the sources). Each position holds at most
    one value and a map of children keyed by path segment, kept in insertion
    order as a JavaScript [Map] is. *)
Inductive PNode := mkPNode {
  pvalue : option CoverageNode;
  pchildren : list (string * PNode)
}.

Definition emptyNode : PNode := mkPNode None [].

(** Modelled from the spec: [insert(key, value)] adds the value at the given
    key, creating the missing positions. *)
Fixpoint insert (key : list string) (v : CoverageNode) (n : PNode) {struct key} : PNode :=
  match key with
  | [] => mkPNode (Some v) (pchildren n)
  | seg :: rest =>
      let fix upd (cs : list (string * PNode)) : list (string * PNode) :=
        match cs with
        | [] => [(seg, insert rest v emptyNode)]
        | (s, c) :: cs' =>
            if String.eqb s seg then (s, insert rest v c) :: cs' else (s, c) :: upd cs'
        end in
      mkPNode (pvalue n) (upd (pchildren n))
  end.

Fixpoint lookup_child (seg : string) (cs : list (string * PNode)) : option PNode :=
  match cs with
  | [] => None
  | (s, c) :: cs' => if String.eqb s seg then Some c else lookup_child seg cs'
  end.

Fixpoint find_node (key : list string) (n : PNode) : option PNode :=
  match key with
  | [] => Some n
  | seg :: rest =>
      match lookup_child seg (pchildren n) with
      | Some c => find_node rest c
      | None => None
      end
  end.

(** Modelled from the spec: [find(key)] returns the value at that exact key,
    or [undefined]. *)
Definition find (key : list string) (tree : PNode) : option CoverageNode :=
  match find_node key tree with Some n => pvalue n | None => None end.

(** Modelled from the spec: [nodes] enumerates every tree position below the
    root, in pre-order; a position is given here by its key. *)
Fixpoint positions (n : PNode) : list (list string) :=
  let fix go (cs : list (string * PNode)) : list (list string) :=
    match cs with
    | [] => []
    | (s, c) :: cs' => app ([s] :: map (cons s) (positions c)) (go cs')
    end in
  go (pchildren n).

(** The node reached through a position is the live object: updating it is
    updating the tree at that key. *)
Fixpoint update_at (key : list string) (f : PNode -> PNode) (n : PNode) : PNode :=
  match key with
  | [] => f n
  | seg :: rest =>
      mkPNode (pvalue n)
        (map (fun sc => if String.eqb (fst sc) seg
                        then (fst sc, update_at rest f (snd sc)) else sc) (pchildren n))
  end.

(* ------------------------------------------------------------------ *)
(** ** Paths of resources *)

(** JavaScript [s.split('/')]. *)
Fixpoint split_aux (s cur : string) : list string :=
  match s with
  | EmptyString => [cur]
  | String c rest =>
      if Ascii.eqb c "/"%char then cur :: split_aux rest ""
      else split_aux rest (cur ++ String c "")
  end.

Definition split_slash (s : string) : list string := split_aux s "".

(** [treePathForUri(uri)]: [scheme], [authority], then [path.split('/')]. *)
Definition treePathForUri (u : URI) : list string :=
  scheme u :: authority u :: split_slash (path u).

(** Modelled from the spec: decoding a key takes its first element as the
    scheme, its second as the authority and joins the rest with ['/'];
    [URI.from] (vs/base/common/uri.ts, not part of the sources) then builds
    the URI as its constructor does: [_schemeFix] turns a missing scheme
    into ['file'], and [_referenceResolution] makes the path of a [file],
    [http] or [https] URI start with ['/']. A missing part ([undefined]) is
    falsy like the empty string, so it is taken as [""]. *)
Definition schemeFix (sc : string) : string := if String.eqb sc "" then "file" else sc.

Definition referenceResolution (sc pa : string) : string :=
  if String.eqb sc "https" || String.eqb sc "http" || String.eqb sc "file" then
    match pa with
    | EmptyString => "/"
    | String c _ => if Ascii.eqb c "/"%char then pa else String "/"%char pa
    end
  else pa.

Definition uriFromComponents (sc au pa : string) : URI :=
  let sc' := schemeFix sc in mkURI sc' au (referenceResolution sc' pa).

(** [\w] of a JavaScript regular expression: [[A-Za-z0-9_]]. *)
Definition is_word_char (c : ascii) : bool :=
  let n := nat_of_ascii c in
  (Nat.leb 97 n && Nat.leb n 122) || (Nat.leb 65 n && Nat.leb n 90) ||
  (Nat.leb 48 n && Nat.leb n 57) || Nat.eqb n 95.

Fixpoint all_chars (f : ascii -> bool) (s : string) : bool :=
  match s with EmptyString => true | String c s' => f c && all_chars f s' end.

(** [_schemePattern = /^\w[\w\d+.-]*$/] *)
Definition schemePattern (sc : string) : bool :=
  match sc with
  | EmptyString => false
  | String c rest =>
      is_word_char c &&
      all_chars (fun d => is_word_char d || Ascii.eqb d "+"%char || Ascii.eqb d "."%char
                          || Ascii.eqb d "-"%char) rest
  end.

(** [_validateUri] (not strict): [false] where it throws. The scheme is
    non-empty after [_schemeFix], so only the scheme pattern and the rules
    for the start of the path remain. *)
Definition validateUri (u : URI) : bool :=
  schemePattern (scheme u) &&
  match path u with
  | EmptyString => true
  | _ => if String.eqb (authority u) "" then negb (String.prefix "//" (path u))
         else String.prefix "/" (path u)
  end.

(** [treePathToUri(path)]: [URI.from({ scheme: path[0], authority: path[1],
    path: path.slice(2).join('/') })]; the call throws where [validateUri]
    is false (see [uriFromSucceeds]). *)
Definition treePathToUri (p : list string) : URI :=
  uriFromComponents (nth 0 p "") (nth 1 p "") (String.concat "/" (skipn 2 p)).

(* ------------------------------------------------------------------ *)
(** ** [TestCoverage.createFileCoverage] and [getUri] *)

(** Step 1: [for (let i = 0; i < files.length; i++)
    tree.insert(this.treePathForUri(file.uri), new FileCoverage(file, 0, this.accessor))]. *)
Fixpoint insertFiles (i : nat) (files : list IFileCoverage) (tree : PNode) : PNode :=
  match files with
  | [] => tree
  | file :: rest =>
      insertFiles (S i) rest
        (insert (treePathForUri (file_uri file)) (Leaf (newFileCoverage file 0)) tree)
  end.

(** One iteration of [for (const [prefix, child] of node.children)]. *)
Definition addChild (fc : IFileCoverage) (v : AbstractFileCoverage) : IFileCoverage :=
  {| file_uri := file_uri fc;
     file_statement := sumCounts (file_statement fc) (statement v);
     file_branch :=
       match branch v with
       | Some b => Some (sumCounts (match file_branch fc with Some x => x | None => emptyCounts end) b)
       | None => file_branch fc
       end;
     file_function :=
       match function v with
       | Some f => Some (sumCounts (match file_function fc with Some x => x | None => emptyCounts end) f)
       | None => file_function fc
       end;
     file_details := file_details fc |}.

(** Step 2: [calculateComputed(path, node)]; returns the value and the node
    with [node.value] (and the values below it) filled in. *)
Fixpoint calculateComputed (p : list string) (node : PNode) : AbstractFileCoverage * PNode :=
  match pvalue node with
  | Some v => (node_coverage v, node)
  | None =>
      let fix loop (cs : list (string * PNode)) (acc : IFileCoverage)
          : IFileCoverage * list (string * PNode) :=
        match cs with
        | [] => (acc, [])
        | (prefix, child) :: cs' =>
            let '(v, child') := calculateComputed (p ++ [prefix]) child in
            let '(acc', cs'') := loop cs' (addChild acc v) in
            (acc', (prefix, child') :: cs'')
        end in
      let '(fileCoverage, cs') :=
        loop (pchildren node)
          {| file_uri := treePathToUri p; file_statement := emptyCounts;
             file_branch := None; file_function := None; file_details := None |} in
      let c := newAbstractFileCoverage fileCoverage in
      (c, mkPNode (Some (Computed c)) cs')
  end.

(** [calculateComputed(path, node)] returns, rather than throws, exactly
    when every [treePathToUri] call it makes succeeds: the record of a
    position without a value is built, with its URI, before its children
    are visited. *)
Fixpoint uriFromSucceeds (p : list string) (node : PNode) : bool :=
  match pvalue node with
  | Some _ => true
  | None =>
      validateUri (treePathToUri p) &&
      (fix go (cs : list (string * PNode)) : bool :=
         match cs with
         | [] => true
         | (prefix, child) :: cs' => uriFromSucceeds (app p [prefix]) child && go cs'
         end) (pchildren node)
  end.

(** [for (const node of tree.nodes) calculateComputed([], node)]. *)
Definition computeAll (tree : PNode) : PNode :=
  fold_left (fun t k => update_at k (fun n => snd (calculateComputed [] n)) t)
    (positions tree) tree.

(** [createFileCoverage], after the provider returned [files]. *)
Definition createFileCoverage (files : list IFileCoverage) : PNode :=
  computeAll (insertFiles 0 files emptyNode).

(** [getUri(uri)] on the tree returned by [getAllFiles]:
    [files.find(uri.path.split('/'))]. *)
Definition getUri (u : URI) (files : PNode) : option CoverageNode :=
  find (split_slash (path u)) files.

(* ------------------------------------------------------------------ *)
(** ** Cached promises: [getAllFiles] and [FileCoverage.details]

    Both members follow the same code:
<<
    this.x ??= start(token);
    try { return await this.x; } catch (e) { this.x = undefined; throw e; }
>>
    The asynchronous runs are made explicit as an interleaving of events:
    a caller entering the member ([Call]), the started request settling
    ([Settle]) and a suspended caller resuming after its [await] ([Resume]).
    Promises are named by their creation index; a request is recorded in
    [invocations] with its argument when [start] runs. *)
Section CachedPromise.
(** [A]: the argument of the request, [R]: what the request settles with,
    [V]: the cached value, [E]: errors. *)
Variables A R V E : Type.
(** The request made by [start] and the synchronous continuation that turns
    its result into the value ([createFileCoverage] after
    [await provideFileCoverage], or nothing for [resolveFileCoverage]). *)
Variable request : A.
Variable finish : R -> V.

Inductive Outcome := Ok (v : V) | Err (e : E).

(** What the field holds: a plain value or a promise. *)
Inductive Handle := HPlain (v : V) | HPromise (id : nat).

Record State := mkState {
  cache : option Handle;
  promises : list (option Outcome);           (** [None]: still pending *)
  invocations : list A;
  waiting : list (nat * Handle);               (** suspended callers *)
  returned : list (nat * Handle * Outcome)     (** finished calls *)
}.

Inductive Event := Call (c : nat) | Settle (id : nat) (r : R + E) | Resume (c : nat).

Definition init (field : option V) : State :=
  mkState (option_map HPlain field) [] [] [] [].

Fixpoint replace_nth {T} (n : nat) (x : T) (l : list T) : list T :=
  match l, n with
  | [], _ => []
  | _ :: l', O => x :: l'
  | y :: l', S n' => y :: replace_nth n' x l'
  end.

Fixpoint take_waiting (c : nat) (ws : list (nat * Handle))
    : option (Handle * list (nat * Handle)) :=
  match ws with
  | [] => None
  | (c', h) :: ws' =>
      if Nat.eqb c c' then Some (h, ws')
      else match take_waiting c ws' with
           | Some (h', rest) => Some (h', (c', h) :: rest)
           | None => None
           end
  end.

(** The outcome an [await] on the handle resumes with, once settled. *)
Definition handle_outcome (s : State) (h : Handle) : option Outcome :=
  match h with
  | HPlain v => Some (Ok v)
  | HPromise id => match nth_error (promises s) id with Some o => o | None => None end
  end.

Definition step (ev : Event) (s : State) : State :=
  match ev with
  | Call c =>
      (* [this.x ??= start(token)], then [await this.x] *)
      match cache s with
      | Some h => mkState (Some h) (promises s) (invocations s)
                          (app (waiting s) [(c, h)]) (returned s)
      | None =>
          let h := HPromise (List.length (promises s)) in
          mkState (Some h) (app (promises s) [None]) (app (invocations s) [request])
                  (app (waiting s) [(c, h)]) (returned s)
      end
  | Settle id r =>
      match nth_error (promises s) id with
      | Some None =>
          let o := match r with inl x => Ok (finish x) | inr e => Err e end in
          mkState (cache s) (replace_nth id (Some o) (promises s)) (invocations s)
                  (waiting s) (returned s)
      | _ => s
      end
  | Resume c =>
      match take_waiting c (waiting s) with
      | Some (h, ws) =>
          match handle_outcome s h with
          | Some (Ok v) =>
              mkState (cache s) (promises s) (invocations s) ws (app (returned s) [(c, h, Ok v)])
          | Some (Err e) =>
              (* [catch (e) { this.x = undefined; throw e; }] *)
              mkState None (promises s) (invocations s) ws (app (returned s) [(c, h, Err e)])
          | None => s
          end
      | None => s
      end
  end.

Definition run (evs : list Event) (s : State) : State := fold_left (fun s ev => step ev s) evs s.

Definition is_failure (ev : Event) : bool :=
  match ev with Settle _ (inr _) => true | _ => false end.

Definition is_call (ev : Event) : bool :=
  match ev with Call _ => true | _ => false end.

Definition no_failure (evs : list Event) : bool := forallb (fun ev => negb (is_failure ev)) evs.

(** Reachable states when no request fails and the field starts empty:
    nothing has happened yet, or exactly one request was made, its promise
    is the cached one, and every awaited or returned handle is it. *)
Definition inv_no_failure (s : State) : Prop :=
  (cache s = None /\ promises s = [] /\ invocations s = [] /\ waiting s = [] /\ returned s = [])
  \/ (cache s = Some (HPromise 0) /\ invocations s = [request] /\
      Forall (fun w => snd w = HPromise 0) (waiting s) /\
      ((promises s = [None] /\ returned s = []) \/
       exists v, promises s = [Some (Ok v)] /\
                 Forall (fun r => snd (fst r) = HPromise 0 /\ snd r = Ok v) (returned s))).

(** Reachable states when the field starts with a plain value [d]. *)
Definition inv_plain (d : V) (s : State) : Prop :=
  cache s = Some (HPlain d) /\ promises s = [] /\ invocations s = [] /\
  Forall (fun w => snd w = HPlain d) (waiting s) /\
  Forall (fun r => snd (fst r) = HPlain d /\ snd r = Ok d) (returned s).
End CachedPromise.

Arguments Ok {V E}.
Arguments Err {V E}.
Arguments HPlain {V}.
Arguments HPromise {V}.
Arguments Call {R E}.
Arguments Settle {R E}.
Arguments Resume {R E}.

(** Errors raised by the provider (including cancellation). *)
Inductive ProviderError := Cancelled | Failed (msg : string).

(** [TestCoverage.getAllFiles]: the request is [provideFileCoverage(token)];
    the continuation builds the tree. *)
Definition sessionStep := step unit (list IFileCoverage) PNode ProviderError tt createFileCoverage.
Definition sessionRun := run unit (list IFileCoverage) PNode ProviderError tt createFileCoverage.
Definition sessionInit : State unit PNode ProviderError := init unit PNode ProviderError None.

(** [FileCoverage.details]: the request is
    [resolveFileCoverage(this.index, token)]; the field starts as
    [coverage.details]. *)
Definition detailsStep (leaf : FileCoverage) :=
  step nat (list CoverageDetails) (list CoverageDetails) ProviderError (leaf_index leaf) id.
Definition detailsRun (leaf : FileCoverage) :=
  run nat (list CoverageDetails) (list CoverageDetails) ProviderError (leaf_index leaf) id.
Definition detailsInit (leaf : FileCoverage) : State nat (list CoverageDetails) ProviderError :=
  init nat (list CoverageDetails) ProviderError (leaf_initial_details leaf).

(* ------------------------------------------------------------------ *)
(** ** Present categories of a node *)

Definition opt_list {T} (o : option T) : list T :=
  match o with Some x => [x] | None => [] end.

(** [statement], then [branch] and [function] when present. *)
Definition present_counts (c : AbstractFileCoverage) : list ICoveredCount :=
  statement c :: app (opt_list (branch c)) (opt_list (function c)).

Definition sum_covered (l : list ICoveredCount) : nat := fold_right (fun cc n => (covered cc + n)%nat) 0%nat l.
Definition sum_total (l : list ICoveredCount) : nat := fold_right (fun cc n => (total cc + n)%nat) 0%nat l.

(* ------------------------------------------------------------------ *)
(** ** Auxiliary definitions for the properties *)

Fixpoint has_dot (s : string) : bool :=
  match s with
  | EmptyString => false
  | String c s' => Ascii.eqb c "."%char || has_dot s'
  end.

(** A file [file:///a.ts] with one covered statement out of two. *)
Definition file_a : IFileCoverage :=
  mkFileCoverage (mkURI "file" "" "/a.ts") (mkCount 1 2) None None None.

Definition file_b : IFileCoverage :=
  mkFileCoverage (mkURI "file" "" "/b.ts") (mkCount 3 4) None None None.

Definition file_x : IFileCoverage :=
  mkFileCoverage (mkURI "file" "" "a/b/x") (mkCount 1 2) None None None.

Definition file_y : IFileCoverage :=
  mkFileCoverage (mkURI "file" "" "a/b/y") (mkCount 3 4) None None None.

Definition file_fn : IFileCoverage :=
  mkFileCoverage (mkURI "file" "" "a/f") (mkCount 1 1) None (Some (mkCount 1 2)) None.

Definition file_br : IFileCoverage :=
  mkFileCoverage (mkURI "file" "" "a/g") (mkCount 0 1) (Some (mkCount 2 3)) None None.
(** A file whose record carries its detail entries. *)
Definition file_c : IFileCoverage :=
  mkFileCoverage (mkURI "file" "" "/c.ts") (mkCount 1 1) None None (Some [mkDetail 1 1]).

(* ------------------------------------------------------------------ *)
(** ** Named pieces of the tree code, for the proofs *)

(** The [for (const [prefix, child] of node.children)] loop of
    [calculateComputed], with the recursive call as a parameter. *)
Definition calcLoop (calc : list string -> PNode -> AbstractFileCoverage * PNode) (p : list string) :=
  fix loop (cs : list (string * PNode)) (acc : IFileCoverage) : IFileCoverage * list (string * PNode) :=
    match cs with
    | [] => (acc, [])
    | (prefix, child) :: cs' =>
        let '(v, child') := calc (app p [prefix]) child in
        let '(acc', cs'') := loop cs' (addChild acc v) in
        (acc', (prefix, child') :: cs'')
    end.

(** The record [calculateComputed] starts from. *)
Definition calcInit (p : list string) : IFileCoverage :=
  {| file_uri := treePathToUri p; file_statement := emptyCounts;
     file_branch := None; file_function := None; file_details := None |}.

(** The children update of [insert], with the recursive insertion as a
    parameter. *)
Definition insertChildren (ins : PNode -> PNode) (seg : string) :=
  fix upd (cs : list (string * PNode)) : list (string * PNode) :=
    match cs with
    | [] => [(seg, ins emptyNode)]
    | (s, c) :: cs' => if String.eqb s seg then (s, ins c) :: cs' else (s, c) :: upd cs'
    end.

(** Induction over tree nodes with a hypothesis for every child. *)
Definition PNode_ind_children (P : PNode -> Prop)
    (H : forall v cs, Forall (fun sc => P (snd sc)) cs -> P (mkPNode v cs)) : forall n, P n :=
  fix rec (n : PNode) : P n :=
    match n with
    | mkPNode v cs =>
        H v cs ((fix go (l : list (string * PNode)) : Forall (fun sc => P (snd sc)) l :=
                   match l with
                   | [] => Forall_nil _
                   | sc :: l' => Forall_cons sc (rec (snd sc)) (go l')
                   end) cs)
    end.

(** The values [calculateComputed] computes for the children of a node. *)
Definition childValues (p : list string) (n : PNode) : list AbstractFileCoverage :=
  map (fun sc => fst (calculateComputed (app p [fst sc]) (snd sc))) (pchildren n).

Definition is_found {T} (o : option T) : bool := match o with Some _ => true | None => false end.

(** [P] holds of every value stored in the tree. *)
Fixpoint all_values (P : CoverageNode -> Prop) (n : PNode) {struct n} : Prop :=
  match n with
  | mkPNode v cs =>
      match v with Some x => P x | None => True end /\
      (fix go (cs : list (string * PNode)) : Prop :=
         match cs with
         | [] => True
         | (_, c) :: cs' => all_values P c /\ go cs'
         end) cs
  end.

(** A value built by the [AbstractFileCoverage] constructor: its
    [function] is its [branch]. *)
Definition built_by_constructor (v : CoverageNode) : Prop :=
  function (node_coverage v) = branch (node_coverage v).

(* ------------------------------------------------------------------ *)
(** ** Coverage bars (testCoverageBars.ts) *)

(** Theme colours of the bars. *)
Inductive Color := chartsGreen | chartsYellow | chartsRed.

(** A threshold: a number, or [-Infinity]. *)
Inductive Threshold := AtLeast (q : Q) | NegInfinity.

(** [colorThresholds] *)
Definition colorThresholds : list (Color * Threshold) :=
  [(chartsGreen, AtLeast (9 # 10)); (chartsYellow, AtLeast (8 # 10)); (chartsRed, NegInfinity)].

(** [pct >= t.threshold] *)
Definition meets (pct : Q) (t : Threshold) : bool :=
  match t with AtLeast q => Qle_bool q pct | NegInfinity => true end.

(** [colorThresholds.find(t => pct >= t.threshold)], then its [color]. *)
Definition findColor (pct : Q) : option Color :=
  option_map fst (List.find (fun t => meets pct (snd t)) colorThresholds).

(** [bar.style.display] *)
Inductive Display := DisplayNone | DisplayBlock.

(** The style of a bar element that the code writes: [display], the
    [--width] property (the number [pct * 100]; the code writes it as
    [`${pct * 100}%`]) and [color]; [None] where it was never set. *)
Record Bar := mkBar { bar_display : option Display; bar_width : option Q; bar_color : option Color }.

Definition emptyBar : Bar := mkBar None None None.

(** [renderBar(bar, pct)]; [None] stands for the [TypeError] raised when
    [find] returns [undefined] and [!.color] reads a field of it. *)
Definition renderBar (bar : Bar) (pct : option Q) : option Bar :=
  match pct with
  | None => Some (mkBar (Some DisplayNone) (bar_width bar) (bar_color bar))
  | Some p =>
      match findColor p with
      | Some col => Some (mkBar (Some DisplayBlock) (Some (p * 100)) (Some col))
      | None => None
      end
  end.

(** The elements built by [el]: compact ([overall] and [tpcBar]) or full
    ([overall], [statement], [method], [branch]); [overall] is the text
    content. *)
Inductive Elements :=
| CompactEls (overall : string) (tpcBar : Bar)
| FullEls (overall : string) (statementBar methodBar branchBar : Bar).

(** The factory of the [Lazy] [el]. *)
Definition createElements (compact : bool) : Elements :=
  if compact then CompactEls "" emptyBar else FullEls "" emptyBar emptyBar emptyBar.

Definition overallText (e : Elements) : string :=
  match e with CompactEls o _ => o | FullEls o _ _ _ => o end.

(** The [render] closure of [setCoverageInfo] for [c = coverage!], with
    [mode] the configured [TestingConfigKeys.CoveragePercent] at the time
    of the call; [None] if a [renderBar] call throws. *)
Definition render (c : AbstractFileCoverage) (mode : TestingDisplayedCoveragePercent) (el : Elements)
    : option Elements :=
  let overallStat := calculateDisplayedStat c mode in
  let overall := displayPercent overallStat in
  match el with
  | CompactEls _ tpcBar => option_map (CompactEls overall) (renderBar tpcBar (Some overallStat))
  | FullEls _ st me br =>
      match renderBar st (Some (percent (statement c))) with
      | None => None
      | Some st1 =>
          match renderBar st1 (option_map percent (function c)) with
          | None => None
          | Some st2 =>
              match renderBar st2 (option_map percent (branch c)) with
              | None => None
              | Some st3 => Some (FullEls overall st3 me br)
              end
          end
      end
  end.

(** The state of an [AbstractTestCoverageBars]: [options.compact], the
    [Lazy] [el] ([None] until first read), [_coverage], the coverages of the
    configuration listeners held in [visibleStore] (in subscription order),
    the number of times [root] was appended to [options.container], and the
    number of [changeEmitter.fire()] calls. *)
Record Bars := mkBars {
  compact : bool;
  el : option Elements;
  _coverage : option AbstractFileCoverage;
  listeners : list AbstractFileCoverage;
  appended : nat;
  fired : nat
}.

Definition newBars (compact : bool) : Bars := mkBars compact None None [] 0 0.

(** [this.el.value] *)
Definition elValue (b : Bars) : Elements :=
  match el b with Some e => e | None => createElements (compact b) end.

(** [setCoverageInfo(coverage)] with [mode] the configured display mode;
    [None] when it throws. With [coverage] undefined and [_coverage] set,
    [render] evaluates [calculateDisplayedStat(undefined, ...)], which reads
    a field of [undefined] in every mode. The inner [if (this._coverage)]
    of the first branch is never entered. *)
Definition setCoverageInfo (coverage : option AbstractFileCoverage)
    (mode : TestingDisplayedCoveragePercent) (b : Bars) : option Bars :=
  match coverage, _coverage b with
  | None, None => Some b
  | None, Some _ => None
  | Some c, cur =>
      match render c mode (elValue b) with
      | None => None
      | Some e =>
          let '(cov', app') :=
            match cur with
            | None => (Some c, S (appended b))
            | Some x => (Some x, appended b)
            end in
          Some {| compact := compact b; el := Some e; _coverage := cov';
                  listeners := app (listeners b) [c]; appended := app'; fired := S (fired b) |}
      end
  end.

(** The configuration listeners, in order, on an
    [onDidChangeConfiguration] event that affects the display mode (now
    [mode]): each one runs [render()] and [changeEmitter.fire()]. *)
Fixpoint notifyListeners (cs : list AbstractFileCoverage) (mode : TestingDisplayedCoveragePercent)
    (b : Bars) : option Bars :=
  match cs with
  | [] => Some b
  | c :: cs' =>
      match render c mode (elValue b) with
      | None => None
      | Some e =>
          notifyListeners cs' mode
            {| compact := compact b; el := Some e; _coverage := _coverage b;
               listeners := listeners b; appended := appended b; fired := S (fired b) |}
      end
  end.

(** A configuration change; [affects] is
    [c.affectsConfiguration(TestingConfigKeys.CoveragePercent)]. *)
Definition configurationChanged (affects : bool) (mode : TestingDisplayedCoveragePercent) (b : Bars)
    : option Bars :=
  if affects then notifyListeners (listeners b) mode b else Some b.

(** Successive [setCoverageInfo] calls with the same display mode. *)
Fixpoint setCoverageInfos (cs : list (option AbstractFileCoverage)) (mode : TestingDisplayedCoveragePercent)
    (b : Bars) : option Bars :=
  match cs with
  | [] => Some b
  | c :: cs' => match setCoverageInfo c mode b with
                | None => None
                | Some b' => setCoverageInfos cs' mode b'
                end
  end.

(** Hover content: a plain string, or a [MarkdownString] (an object, so
    always truthy). *)
Inductive HoverContent := PlainText (s : string) | Markdown (s : string).

(** [!content] is false. *)
Definition truthy (h : HoverContent) : bool :=
  match h with PlainText s => negb (String.eqb s "") | Markdown _ => true end.

(** The elements a hover is attached to. *)
Inductive HoverTarget := TpcBarTarget | StatementTarget | MethodTarget | BranchTarget.

Section Hover.

(** [localize(key, message, arg)] of vs/nls. *)
Variable localize : string -> string -> string -> string.

Definition stmtCoverageText (c : AbstractFileCoverage) : string :=
  localize "statementCoverage" "{} statement coverage" (displayPercent (percent (statement c))).

Definition fnCoverageText (c : AbstractFileCoverage) : option string :=
  option_map (fun f => localize "functionCoverage" "{} function coverage" (displayPercent (percent f)))
    (function c).

Definition branchCoverageText (c : AbstractFileCoverage) : option string :=
  option_map (fun b => localize "branchCoverage" "{} branch coverage" (displayPercent (percent b)))
    (branch c).

(** The separator ['\n\n']. *)
Definition blankLine : string := String "010"%char (String "010"%char "").

(** [getOverallHoverText]: [filter(isDefined).join('\n\n')] of the three. *)
Definition getOverallHoverText (c : AbstractFileCoverage) : string :=
  String.concat blankLine
    (app [stmtCoverageText c] (app (opt_list (fnCoverageText c)) (opt_list (branchCoverageText c)))).

(** The factory given to [attachHover] for each element. *)
Definition hoverFactory (t : HoverTarget) (c : AbstractFileCoverage) : option HoverContent :=
  match t with
  | TpcBarTarget => Some (Markdown (getOverallHoverText c))
  | StatementTarget => Some (PlainText (stmtCoverageText c))
  | MethodTarget => option_map PlainText (fnCoverageText c)
  | BranchTarget => option_map PlainText (branchCoverageText c)
  end.

(** The [onmouseenter] handler installed by [attachHover]: the content
    passed to [hoverService.showHover], if any. *)
Definition onMouseEnter (t : HoverTarget) (b : Bars) : option HoverContent :=
  match _coverage b with
  | None => None
  | Some c =>
      match hoverFactory t c with
      | None => None
      | Some content => if truthy content then Some content else None
      end
  end.

End Hover.

(* ================================================================== *)
(** * Properties *)

(** ** Numbers *)

Example toFixed_1 : toFixed 100 2 = "100.00". Proof. reflexivity. Qed.
Example toFixed_2 : toFixed (1 # 3) 2 = "0.33". Proof. reflexivity. Qed.
Example toFixed_3 : toFixed (-(5 # 1000)) 2 = "-0.01". Proof. reflexivity. Qed.
Example toFixed_4 : toFixed (99995 # 1000) 2 = "100.00". Proof. reflexivity. Qed.
Example displayPercent_1 : displayPercent (9999995 # 10000000) = "100.00%". Proof. reflexivity. Qed.

Lemma Qlt_bool_iff (x y : Q) : Qlt_bool x y = true <-> (x < y)%Q.
Proof.
  unfold Qlt_bool. rewrite negb_true_iff. split; intro H.
  - apply Qnot_le_lt. intro Hle. apply Qle_bool_iff in Hle. congruence.
  - destruct (Qle_bool y x) eqn:E; [|reflexivity].
    apply Qle_bool_iff in E. exfalso. apply (Qlt_not_le x y); assumption.
Qed.

Lemma Qlt_bool_false (x y : Q) : (y <= x)%Q -> Qlt_bool x y = false.
Proof.
  intro H. destruct (Qlt_bool x y) eqn:E; [|reflexivity].
  apply Qlt_bool_iff in E. exfalso. apply (Qlt_not_le x y); assumption.
Qed.

Lemma Qfloor_unique (y : Q) (z : Z) : (inject_Z z <= y)%Q -> (y < inject_Z (z + 1))%Q -> Qfloor y = z.
Proof.
  intros Hlo Hhi.
  assert (H1 := Qfloor_le y). assert (H2 := Qlt_floor y).
  assert (A : (Qfloor y < z + 1)%Z).
  { rewrite Zlt_Qlt. apply (Qle_lt_trans _ y); assumption. }
  assert (B : (z < Qfloor y + 1)%Z).
  { rewrite Zlt_Qlt. apply (Qle_lt_trans _ y); assumption. }
  lia.
Qed.

(** [toFixed] of a non-negative value in terms of its rounded integer. *)
Lemma toFixed_nonneg (x : Q) (f : nat) (n : Z) :
  (0 <= x)%Q ->
  Qfloor (x * inject_Z (10 ^ Z.of_nat f) + (1 # 2)) = n ->
  toFixed x f =
    (let m := Z_to_string n in
     if Nat.eqb f 0 then "" ++ m else
     let m := if Nat.leb (String.length m) f
              then String.append (String.concat "" (List.repeat "0" (S f - String.length m))) m
              else m in
     let k := String.length m in
     "" ++ String.substring 0 (k - f) m ++ "." ++ String.substring (k - f) f m).
Proof.
  intros Hx Hn. unfold toFixed. rewrite (Qlt_bool_false x 0 Hx). rewrite Hn. reflexivity.
Qed.


Lemma has_dot_app_r (p q : string) : has_dot q = true -> has_dot (p ++ q) = true.
Proof. induction p as [|c p IH]; simpl; [auto|]. intro H. rewrite IH by exact H. apply orb_true_r. Qed.

(** With two decimals, [toFixed] always writes a decimal point. *)
Lemma toFixed_2_has_dot (x : Q) : has_dot (toFixed x 2) = true.
Proof. unfold toFixed. simpl Nat.eqb. cbv zeta. do 2 apply has_dot_app_r. reflexivity. Qed.

(** [1 − epsilon ≤ f ≤ 1] makes [(f * 100).toFixed(2)] equal to ["100.00"]. *)
Lemma toFixed_near_one (f : Q) :
  (1 - epsilon <= f)%Q -> (f <= 1)%Q -> toFixed (f * 100) precision = "100.00".
Proof.
  intros Hlo Hhi. unfold epsilon in Hlo.
  assert (Hx : (0 <= f * 100)%Q) by lra.
  assert (Hfl : Qfloor (f * 100 * inject_Z (10 ^ Z.of_nat precision) + (1 # 2)) = 10000%Z).
  { apply Qfloor_unique;
      replace (inject_Z (10 ^ Z.of_nat precision)) with (100 # 1) by reflexivity;
      [replace (inject_Z 10000) with (10000 # 1) by reflexivity
      |replace (inject_Z (10000 + 1)) with (10001 # 1) by reflexivity]; lra. }
  rewrite (toFixed_nonneg _ _ 10000 Hx Hfl). reflexivity.
Qed.

(** Claim C4 (counterexample): the claim that every fraction [f] with
    [1 − 1e-7 ≤ f < 1] is displayed as ["99.99%"] fails at
    [f = 1 − 1e-7 = 0.9999999], which [displayPercent] renders as
    ["100.00%"]. *)
Lemma displayPercent_below_one_counterexample :
  ~ (forall f : Q, (1 - (1 # 10000000) <= f)%Q -> (f < 1)%Q -> displayPercent f = "99.99%").
Proof.
  intro H. specialize (H (9999999 # 10000000)).
  assert (E : displayPercent (9999999 # 10000000) = "100.00%") by reflexivity.
  rewrite H in E; [discriminate | |]; unfold Qle, Qlt; simpl; lia.
Qed.

(** Claim C4 (amended): every fraction [f] with [1 − epsilon ≤ f ≤ 1]
    ([epsilon = 10e-8 = 1e-7]), in particular [f = 1], is displayed as
    ["100.00%"]: the ["99.99%"] substitution is guarded by
    [value < 1 - epsilon] and never applies there. Any value whose
    two-decimal rendering [(f * 100).toFixed(2)] is not ["100.00"] is
    displayed as that rendering followed by ["%"]. *)
Theorem displayPercent_near_one (f : Q) :
  ((1 - epsilon <= f)%Q -> (f <= 1)%Q -> displayPercent f = "100.00%") /\
  (toFixed (f * 100) precision <> "100.00" ->
   displayPercent f = toFixed (f * 100) precision ++ "%").
Proof.
  split.
  - intros Hlo Hhi. unfold displayPercent.
    rewrite (toFixed_near_one f Hlo Hhi). rewrite (Qlt_bool_false f _ Hlo). reflexivity.
  - intros _. unfold displayPercent.
    destruct (String.eqb (toFixed (f * 100) precision) "100") eqn:E.
    + apply String.eqb_eq in E. exfalso.
      assert (D := toFixed_2_has_dot (f * 100)). unfold precision in E. rewrite E in D.
      discriminate.
    + rewrite andb_false_r. reflexivity.
Qed.

Lemma displayPercent_near_one_witness :
  displayPercent 1 = "100.00%" /\ displayPercent (9999999 # 10000000) = "100.00%" /\
  displayPercent (1 # 2) = "50.00%".
Proof.
  split; [|split].
  - apply (proj1 (displayPercent_near_one 1)); unfold epsilon, Qle; simpl; lia.
  - apply (proj1 (displayPercent_near_one (9999999 # 10000000))); unfold epsilon, Qle; simpl; lia.
  - apply (proj2 (displayPercent_near_one (1 # 2))). vm_compute. discriminate.
Defined.

(** ** Total percent covered *)

Lemma nat_to_Q_le (a b : nat) : (a <= b)%nat -> (nat_to_Q a <= nat_to_Q b)%Q.
Proof. intro H. unfold nat_to_Q. rewrite <- Zle_Qle. lia. Qed.

Lemma nat_to_Q_pos (a : nat) : a <> 0%nat -> (0 < nat_to_Q a)%Q.
Proof. intro H. unfold nat_to_Q. change 0%Q with (inject_Z 0). rewrite <- Zlt_Qlt. lia. Qed.

Lemma sum_covered_le (l : list ICoveredCount) :
  Forall (fun cc => (covered cc <= total cc)%nat) l -> (sum_covered l <= sum_total l)%nat.
Proof. induction 1; simpl; lia. Qed.

Lemma sum_total_zero (l : list ICoveredCount) :
  Forall (fun cc => total cc = 0%nat) l -> sum_total l = 0%nat.
Proof. induction 1; simpl; lia. Qed.

Lemma tpc_sums (c : AbstractFileCoverage) :
  tpc c = if Nat.eqb (sum_total (present_counts c)) 0 then 1%Q
          else (nat_to_Q (sum_covered (present_counts c)) / nat_to_Q (sum_total (present_counts c)))%Q.
Proof.
  destruct c as [u st [b|] [f|]]; unfold tpc, present_counts, sum_covered, sum_total; simpl;
    rewrite ?Nat.add_0_r, ?Nat.add_assoc; reflexivity.
Qed.

(** Claim C5: [tpc] is the sum of [covered] over the present categories
    divided by the sum of their [total], or 1 when that sum is zero; when
    every present category has [covered <= total], [tpc] lies in [0, 1]; when
    every present category has [total = 0], [tpc] is 1. *)
Theorem tpc_formula (c : AbstractFileCoverage) :
  tpc c = (if Nat.eqb (sum_total (present_counts c)) 0 then 1%Q
           else nat_to_Q (sum_covered (present_counts c)) / nat_to_Q (sum_total (present_counts c)))%Q /\
  (Forall (fun cc => (covered cc <= total cc)%nat) (present_counts c) -> (0 <= tpc c <= 1)%Q) /\
  (Forall (fun cc => total cc = 0%nat) (present_counts c) -> tpc c = 1%Q).
Proof.
  split; [apply tpc_sums|split].
  - intro H. apply sum_covered_le in H. rewrite tpc_sums.
    destruct (Nat.eqb (sum_total (present_counts c)) 0) eqn:E.
    + split; unfold Qle; simpl; lia.
    + apply Nat.eqb_neq in E. assert (P := nat_to_Q_pos _ E). split.
      * apply Qle_shift_div_l; [exact P|]. rewrite Qmult_0_l. unfold nat_to_Q.
        change 0%Q with (inject_Z 0). rewrite <- Zle_Qle. lia.
      * apply Qle_shift_div_r; [exact P|]. rewrite Qmult_1_l. apply nat_to_Q_le. exact H.
  - intro H. apply sum_total_zero in H. rewrite tpc_sums, H. reflexivity.
Qed.

Lemma tpc_formula_witness :
  tpc {| uri := mkURI "file" "" "/a"; statement := mkCount 0 0;
         branch := Some (mkCount 0 0); function := Some (mkCount 0 0) |} = 1%Q /\
  (0 <= tpc {| uri := mkURI "file" "" "/a"; statement := mkCount 3 4;
               branch := Some (mkCount 1 2); function := None |} <= 1)%Q.
Proof.
  split.
  - apply (proj2 (proj2 (tpc_formula _))). repeat constructor.
  - apply (proj1 (proj2 (tpc_formula _))). repeat constructor; simpl; lia.
Defined.

(** ** Metric selector *)

Lemma Qmin_cases (x y : Q) : Qmin x y = x \/ Qmin x y = y.
Proof. unfold Qmin, GenericMinMax.gmin. destruct (x ?= y)%Q; auto. Qed.

Lemma Qmin_le_l (x y : Q) : (Qmin x y <= x)%Q.
Proof. apply Q.le_min_l. Qed.

Lemma Qmin_le_r (x y : Q) : (Qmin x y <= y)%Q.
Proof. apply Q.le_min_r. Qed.

(** Claim C9: a category percent is [covered / total], or 1 when [total] is
    0; Statement mode returns the statement percent, Total-coverage mode the
    node's [tpc], and Minimum mode returns one of the percents of the present
    categories (statement, then branch and function when present) that is below
    all of them, i.e. their minimum. *)
Theorem calculateDisplayedStat_modes (c : AbstractFileCoverage) :
  (forall cc, percent cc = if Nat.eqb (total cc) 0 then 1%Q
                           else (nat_to_Q (covered cc) / nat_to_Q (total cc))%Q) /\
  calculateDisplayedStat c Statement = percent (statement c) /\
  calculateDisplayedStat c TotalCoverage = tpc c /\
  In (calculateDisplayedStat c Minimum) (map percent (present_counts c)) /\
  Forall (fun cc => (calculateDisplayedStat c Minimum <= percent cc)%Q) (present_counts c).
Proof.
  split; [reflexivity|]. split; [reflexivity|]. split; [reflexivity|].
  destruct c as [u st [b|] [f|]]; unfold present_counts; simpl.
  - split.
    + destruct (Qmin_cases (Qmin (percent st) (percent b)) (percent f)) as [E|E]; rewrite E;
        [destruct (Qmin_cases (percent st) (percent b)) as [E'|E']; rewrite E'|]; tauto.
    + repeat constructor.
      * eapply Qle_trans; [apply Qmin_le_l|apply Qmin_le_l].
      * eapply Qle_trans; [apply Qmin_le_l|apply Qmin_le_r].
      * apply Qmin_le_r.
  - split.
    + destruct (Qmin_cases (percent st) (percent b)) as [E|E]; rewrite E; tauto.
    + repeat constructor; [apply Qmin_le_l|apply Qmin_le_r].
  - split.
    + destruct (Qmin_cases (percent st) (percent f)) as [E|E]; rewrite E; tauto.
    + repeat constructor; [apply Qmin_le_l|apply Qmin_le_r].
  - split; [tauto|]. repeat constructor. apply Qle_refl.
Qed.

(** Statement percent 0.95 and branch percent 0.70 select 0.70. *)
Example calculateDisplayedStat_minimum_example :
  (calculateDisplayedStat
     (newAbstractFileCoverage
        (mkFileCoverage (mkURI "file" "" "/a") (mkCount 95 100) (Some (mkCount 70 100)) None None))
     Minimum == 7 # 10)%Q.
Proof. reflexivity. Qed.

(** ** Tree construction and lookup *)


(** Claim C1 (code_bug): the leaf of [file:///a.ts] is inserted under
    [["file"; ""; ""; "a.ts"]] (scheme, authority, path segments), but
    [getUri] looks it up under [path.split('/') = [""; "a.ts"]] only, so it
    returns [undefined] although the leaf exists at the decomposed key. *)
Theorem getUri_skips_scheme_and_authority :
  let tree := createFileCoverage [file_a] in
  treePathForUri (file_uri file_a) = ["file"; ""; ""; "a.ts"] /\
  find (treePathForUri (file_uri file_a)) tree = Some (Leaf (newFileCoverage file_a 0)) /\
  getUri (file_uri file_a) tree = None.
Proof. vm_compute. auto. Qed.

(** Claim C2 (code_bug): the node built from a record always takes its
    [function] count from the record's [branch]; a record with
    [function = {1, 2}] and no [branch] gives a node without [function]. *)
Theorem newAbstractFileCoverage_function_is_branch :
  (forall r, function (newAbstractFileCoverage r) = file_branch r) /\
  function (newAbstractFileCoverage
              (mkFileCoverage (mkURI "file" "" "/a.ts") (mkCount 1 1) None (Some (mkCount 1 2)) None))
    = None.
Proof. split; reflexivity. Qed.


(** Claim C3 (code_bug): every leaf is created with index 0; the leaf of the
    second file of [[file_a; file_b]] stores 0 instead of 1, and its first
    [details()] call asks the resolver for file 0. *)
Theorem createFileCoverage_index_always_zero :
  let tree := createFileCoverage [file_a; file_b] in
  exists leaf,
    find (treePathForUri (file_uri file_b)) tree = Some (Leaf leaf) /\
    leaf_base leaf = newAbstractFileCoverage file_b /\
    leaf_index leaf = 0%nat /\
    invocations _ _ _ (detailsStep leaf (Call 0) (detailsInit leaf)) = [0%nat].
Proof. vm_compute. eexists. split; [reflexivity|]. vm_compute. auto. Qed.

(** Leaves are returned unchanged by [calculateComputed]. *)
Lemma calculateComputed_value (p : list string) (n : PNode) (v : CoverageNode) :
  pvalue n = Some v -> calculateComputed p n = (node_coverage v, n).
Proof. intro H. destruct n as [[w|] cs]; simpl in *; congruence. Qed.


(** ** Cached promises *)

Section CachedPromiseFacts.
Variables A R V E : Type.
Variable request : A.
Variable finish : R -> V.


Lemma take_waiting_some (c : nat) (ws ws' : list (nat * Handle V)) (h : Handle V) :
  take_waiting V c ws = Some (h, ws') ->
  In (c, h) ws /\ (forall w, In w ws' -> In w ws).
Proof.
  revert ws'. induction ws as [|[c' h'] ws IH]; intros ws' H; simpl in H; [discriminate|].
  destruct (Nat.eqb c c') eqn:E1.
  - apply Nat.eqb_eq in E1. subst. injection H as <- <-. simpl. auto.
  - destruct (take_waiting V c ws) as [[h'' rest]|] eqn:E2; [|discriminate].
    injection H as <- <-. destruct (IH rest eq_refl) as [I1 I2]. simpl. split; [auto|].
    intros w [<-|Hw]; auto.
Qed.

Lemma Forall_take_waiting (P : nat * Handle V -> Prop) (c : nat) ws ws' h :
  Forall P ws -> take_waiting V c ws = Some (h, ws') -> P (c, h) /\ Forall P ws'.
Proof.
  intros HP Ht. destruct (take_waiting_some c ws ws' h Ht) as [I1 I2].
  rewrite Forall_forall in HP |- *. auto.
Qed.

Lemma step_inv_no_failure (ev : Event R E) (s : State A V E) :
  inv_no_failure A V E request s -> is_failure R E ev = false ->
  inv_no_failure A V E request (step A R V E request finish ev s).
Proof.
  destruct s as [ca pr iv ws rt]. unfold inv_no_failure; simpl.
  intros [(-> & -> & -> & -> & ->)|(-> & -> & Hw & Hp)] Hf; destruct ev as [c|id [x|e]|c];
    simpl in *; try discriminate.
  - right. repeat split; [repeat constructor|]. left; auto.
  - destruct id; simpl; left; auto.
  - left; auto.
  - right. repeat split; [apply Forall_app; split; [exact Hw|repeat constructor]|exact Hp].
  - destruct Hp as [(-> & ->)|(v & -> & Hr)].
    + destruct id as [|[|id]]; simpl; right; (split; [reflexivity|]); (split; [reflexivity|]);
        (split; [exact Hw|]); [right; exists (finish x); split; [reflexivity|constructor]|left; auto|left; auto].
    + destruct id as [|[|id]]; simpl; right; (split; [reflexivity|]); (split; [reflexivity|]);
        (split; [exact Hw|]); right; exists v; (split; [reflexivity|exact Hr]).
  - destruct (take_waiting V c ws) as [[h ws']|] eqn:Ht; simpl.
    2: { right. split; [reflexivity|]. split; [reflexivity|]. split; [exact Hw|exact Hp]. }
    destruct (Forall_take_waiting _ c ws ws' h Hw Ht) as [Hh Hw']. simpl in Hh. subst h.
    unfold handle_outcome; simpl.
    destruct Hp as [(-> & ->)|(v & -> & Hr)]; simpl.
    + right. split; [reflexivity|]. split; [reflexivity|]. split; [exact Hw|]. left; auto.
    + right. split; [reflexivity|]. split; [reflexivity|]. split; [exact Hw'|].
      right. exists v. split; [reflexivity|].
      apply Forall_app. split; [exact Hr|repeat constructor].
Qed.

Lemma run_inv_no_failure (evs : list (Event R E)) (s : State A V E) :
  inv_no_failure A V E request s -> no_failure R E evs = true ->
  inv_no_failure A V E request (run A R V E request finish evs s).
Proof.
  revert s. induction evs as [|ev evs IH]; intros s Hs Hnf; [exact Hs|].
  simpl in Hnf. apply andb_true_iff in Hnf as [H1 H2]. apply negb_true_iff in H1.
  apply IH; [apply step_inv_no_failure|]; assumption.
Qed.

Lemma step_invocations_other (ev : Event R E) (s : State A V E) :
  is_call R E ev = false -> invocations A V E (step A R V E request finish ev s) = invocations A V E s.
Proof.
  destruct s as [ca pr iv ws rt]. destruct ev as [c|id r|c]; simpl; intro H; [discriminate| |].
  - destruct (nth_error pr id) as [[o|]|]; reflexivity.
  - destruct (take_waiting V c ws) as [[h ws']|]; [|reflexivity].
    destruct (handle_outcome A V E (mkState A V E ca pr iv ws rt) h) as [[v|e]|]; reflexivity.
Qed.

Lemma step_call_invocations (c : nat) (s : State A V E) :
  inv_no_failure A V E request s -> invocations A V E (step A R V E request finish (Call c) s) = [request].
Proof.
  destruct s as [ca pr iv ws rt]. unfold inv_no_failure; simpl.
  intros [(-> & -> & -> & -> & ->)|(-> & -> & _)]; reflexivity.
Qed.

(** Without failures, a request is made exactly when some call happened. *)
Lemma run_invocations (evs : list (Event R E)) (s : State A V E) :
  inv_no_failure A V E request s -> no_failure R E evs = true ->
  invocations A V E (run A R V E request finish evs s) =
    if existsb (is_call R E) evs then [request] else invocations A V E s.
Proof.
  revert s. induction evs as [|ev evs IH]; intros s Hs Hnf; [reflexivity|].
  simpl in Hnf. apply andb_true_iff in Hnf as [H1 H2]. apply negb_true_iff in H1.
  simpl. rewrite (IH _ (step_inv_no_failure ev s Hs H1) H2).
  destruct (existsb (is_call R E) evs); [rewrite orb_true_r; reflexivity|].
  rewrite orb_false_r. destruct (is_call R E ev) eqn:Ec.
  - destruct ev; try discriminate. apply step_call_invocations; exact Hs.
  - apply step_invocations_other; exact Ec.
Qed.

(** Without failures, all successful calls got the same handle and value. *)
Lemma inv_no_failure_same_result (s : State A V E) :
  inv_no_failure A V E request s ->
  forall c1 h1 v1 c2 h2 v2,
    In (c1, h1, Ok v1) (returned A V E s) -> In (c2, h2, Ok v2) (returned A V E s) ->
    h1 = h2 /\ v1 = v2 /\ h1 = HPromise 0.
Proof.
  intros [(_ & _ & _ & _ & ->)|(_ & _ & _ & [(_ & ->)|(v & _ & Hr)])] c1 h1 v1 c2 h2 v2 I1 I2;
    try contradiction.
  rewrite Forall_forall in Hr.
  destruct (Hr _ I1) as [E1 F1]. destruct (Hr _ I2) as [E2 F2]. simpl in *.
  injection F1 as ->. injection F2 as ->. subst. auto.
Qed.

(** A settled promise keeps its outcome. *)
Lemma step_settled (ev : Event R E) (s : State A V E) (id : nat) (o : Outcome V E) :
  nth_error (promises A V E s) id = Some (Some o) ->
  nth_error (promises A V E (step A R V E request finish ev s)) id = Some (Some o).
Proof.
  destruct s as [ca pr iv ws rt]. simpl. intro H.
  destruct ev as [c|id' r|c]; simpl.
  - destruct ca; simpl; [exact H|]. rewrite nth_error_app1; [exact H|].
    apply nth_error_Some. congruence.
  - destruct (nth_error pr id') as [[o'|]|] eqn:E1; simpl; try exact H.
    revert id id' H E1. induction pr as [|p pr IH]; intros [|id] [|id'] H E1; simpl in *;
      try discriminate; auto. congruence.
  - destruct (take_waiting V c ws) as [[h ws']|]; [|exact H].
    destruct (handle_outcome A V E (mkState A V E ca pr iv ws rt) h) as [[v|e]|]; exact H.
Qed.

Lemma run_settled (evs : list (Event R E)) (s : State A V E) (id : nat) (o : Outcome V E) :
  nth_error (promises A V E s) id = Some (Some o) ->
  nth_error (promises A V E (run A R V E request finish evs s)) id = Some (Some o).
Proof.
  revert s. induction evs as [|ev evs IH]; intros s H; [exact H|]. apply IH, step_settled, H.
Qed.

(** A caller resuming on a failed promise clears the field and rethrows;
    the next call makes a new request with a new promise. *)
Lemma resume_failure (s : State A V E) (c : nat) (id : nat) (e : E)
    (ws : list (nat * Handle V)) :
  take_waiting V c (waiting A V E s) = Some (HPromise id, ws) ->
  nth_error (promises A V E s) id = Some (Some (Err e)) ->
  let s' := step A R V E request finish (Resume c) s in
  cache A V E s' = None /\
  returned A V E s' = app (returned A V E s) [(c, HPromise id, Err e)] /\
  forall c', let s'' := step A R V E request finish (Call c') s' in
    invocations A V E s'' = app (invocations A V E s) [request] /\
    cache A V E s'' = Some (HPromise (List.length (promises A V E s))) /\
    nth_error (promises A V E s'') (List.length (promises A V E s)) = Some None.
Proof.
  destruct s as [ca pr iv ws0 rt]. simpl. intros Ht Hp. rewrite Ht. simpl. rewrite Hp.
  simpl. repeat split. rewrite nth_error_app2 by lia. rewrite Nat.sub_diag. reflexivity.
Qed.

Lemma step_inv_plain (d : V) (ev : Event R E) (s : State A V E) :
  inv_plain A V E d s -> inv_plain A V E d (step A R V E request finish ev s).
Proof.
  destruct s as [ca pr iv ws rt]. unfold inv_plain; simpl.
  intros (-> & -> & -> & Hw & Hr). destruct ev as [c|id r|c]; simpl.
  - repeat split; auto. apply Forall_app. split; [exact Hw|repeat constructor].
  - destruct id; simpl; repeat split; auto.
  - destruct (take_waiting V c ws) as [[h ws']|] eqn:Ht; simpl; [|repeat split; auto].
    destruct (Forall_take_waiting _ c ws ws' h Hw Ht) as [Hh Hw']. simpl in Hh. subst h.
    simpl. repeat split; auto. apply Forall_app. split; [exact Hr|repeat constructor].
Qed.

Lemma run_inv_plain (d : V) (evs : list (Event R E)) (s : State A V E) :
  inv_plain A V E d s -> inv_plain A V E d (run A R V E request finish evs s).
Proof.
  revert s. induction evs as [|ev evs IH]; intros s H; [exact H|]. apply IH, step_inv_plain, H.
Qed.
End CachedPromiseFacts.

(** Claim C7: without a failing provider call, [getAllFiles] asks the
    provider for the file list exactly once as soon as it has been called
    (never otherwise), and all successful calls return the same tree,
    produced by the same promise. When a caller resumes on a failed
    construction, the cached promise is cleared, the error is rethrown to it,
    the failed promise keeps its error for every other caller of that
    attempt, and the next call invokes the provider again with a new
    promise. *)
Theorem getAllFiles_single_construction :
  (forall evs : list (Event (list IFileCoverage) ProviderError),
     no_failure _ _ evs = true ->
     let s := sessionRun evs sessionInit in
     invocations _ _ _ s = (if existsb (is_call _ _) evs then [tt] else []) /\
     (forall c1 h1 t1 c2 h2 t2,
        In (c1, h1, Ok t1) (returned _ _ _ s) -> In (c2, h2, Ok t2) (returned _ _ _ s) ->
        h1 = h2 /\ t1 = t2)) /\
  (forall (s : State unit PNode ProviderError) c id e ws,
     take_waiting _ c (waiting _ _ _ s) = Some (HPromise id, ws) ->
     nth_error (promises _ _ _ s) id = Some (Some (Err e)) ->
     let s' := sessionStep (Resume c) s in
     cache _ _ _ s' = None /\
     returned _ _ _ s' = app (returned _ _ _ s) [(c, HPromise id, Err e)] /\
     (forall evs, nth_error (promises _ _ _ (sessionRun evs s')) id = Some (Some (Err e))) /\
     (forall c', let s'' := sessionStep (Call c') s' in
        invocations _ _ _ s'' = app (invocations _ _ _ s) [tt] /\
        cache _ _ _ s'' = Some (HPromise (List.length (promises _ _ _ s))) /\
        nth_error (promises _ _ _ s'') (List.length (promises _ _ _ s)) = Some None)).
Proof.
  split.
  - intros evs Hnf s.
    assert (I0 : inv_no_failure unit PNode ProviderError tt sessionInit) by (left; auto).
    split.
    + unfold s, sessionRun. rewrite (run_invocations _ _ _ _ tt createFileCoverage evs _ I0 Hnf).
      reflexivity.
    + intros c1 h1 t1 c2 h2 t2 I1 I2.
      pose proof (run_inv_no_failure _ _ _ _ tt createFileCoverage evs _ I0 Hnf) as Hi.
      destruct (inv_no_failure_same_result _ _ _ _ _ Hi c1 h1 t1 c2 h2 t2 I1 I2) as (? & ? & _).
      auto.
  - intros s c id e ws Ht Hp.
    destruct (resume_failure _ _ _ _ tt createFileCoverage s c id e ws Ht Hp) as (H1 & H2 & H3).
    split; [exact H1|]. split; [exact H2|]. split; [|exact H3].
    intro evs. apply run_settled. destruct s as [ca pr iv ws0 rt]. simpl in *.
    rewrite Ht. simpl. rewrite Hp. exact Hp.
Qed.

Lemma getAllFiles_single_construction_witness :
  invocations _ _ _
    (sessionRun [Call 0; Call 1; Settle 0 (inl [file_a]); Resume 0; Resume 1] sessionInit) = [tt] /\
  cache _ _ _ (sessionStep (Resume 0)
                 (sessionRun [Call 0; Settle 0 (inr Cancelled)] sessionInit)) = None.
Proof.
  split.
  - exact (proj1 (proj1 getAllFiles_single_construction
                    [Call 0; Call 1; Settle 0 (inl [file_a]); Resume 0; Resume 1] eq_refl)).
  - exact (proj1 (proj2 getAllFiles_single_construction
                    (sessionRun [Call 0; Settle 0 (inr Cancelled)] sessionInit) 0%nat 0%nat Cancelled []
                    eq_refl eq_refl)).
Defined.

(** Claim C8: for a leaf whose details are resolved lazily (the record had
    none), calls to [details()] without a failing resolution make exactly one
    resolver request, [resolveFileCoverage(index)], as soon as one call
    happened, and share its result. A caller resuming on a failed resolution
    clears the leaf's cache and gets the error, the failed promise keeps its
    error for the other callers, and the next call requests again. *)
Theorem details_single_resolution (leaf : FileCoverage) :
  leaf_initial_details leaf = None ->
  (forall evs : list (Event (list CoverageDetails) ProviderError),
     no_failure _ _ evs = true ->
     let s := detailsRun leaf evs (detailsInit leaf) in
     invocations _ _ _ s = (if existsb (is_call _ _) evs then [leaf_index leaf] else []) /\
     (forall c1 h1 d1 c2 h2 d2,
        In (c1, h1, Ok d1) (returned _ _ _ s) -> In (c2, h2, Ok d2) (returned _ _ _ s) ->
        h1 = h2 /\ d1 = d2)) /\
  (forall (s : State nat (list CoverageDetails) ProviderError) c id e ws,
     take_waiting _ c (waiting _ _ _ s) = Some (HPromise id, ws) ->
     nth_error (promises _ _ _ s) id = Some (Some (Err e)) ->
     let s' := detailsStep leaf (Resume c) s in
     cache _ _ _ s' = None /\
     returned _ _ _ s' = app (returned _ _ _ s) [(c, HPromise id, Err e)] /\
     (forall evs, nth_error (promises _ _ _ (detailsRun leaf evs s')) id = Some (Some (Err e))) /\
     (forall c', let s'' := detailsStep leaf (Call c') s' in
        invocations _ _ _ s'' = app (invocations _ _ _ s) [leaf_index leaf] /\
        cache _ _ _ s'' = Some (HPromise (List.length (promises _ _ _ s))) /\
        nth_error (promises _ _ _ s'') (List.length (promises _ _ _ s)) = Some None)).
Proof.
  intro Hd. split.
  - intros evs Hnf s.
    assert (I0 : inv_no_failure nat (list CoverageDetails) ProviderError (leaf_index leaf)
                   (detailsInit leaf)) by (left; unfold detailsInit, init; rewrite Hd; auto).
    split.
    + unfold s, detailsRun. rewrite (run_invocations _ _ _ _ _ id evs _ I0 Hnf).
      reflexivity.
    + intros c1 h1 d1 c2 h2 d2 I1 I2.
      pose proof (run_inv_no_failure _ _ _ _ _ id evs _ I0 Hnf) as Hi.
      destruct (inv_no_failure_same_result _ _ _ _ _ Hi c1 h1 d1 c2 h2 d2 I1 I2) as (? & ? & _).
      auto.
  - intros s c i e ws Ht Hp.
    destruct (resume_failure _ _ _ _ (leaf_index leaf) id s c i e ws Ht Hp) as (H1 & H2 & H3).
    split; [exact H1|]. split; [exact H2|]. split; [|exact H3].
    intro evs. apply run_settled. destruct s as [ca pr iv ws0 rt]. simpl in *.
    rewrite Ht. simpl. rewrite Hp. exact Hp.
Qed.

Lemma details_single_resolution_witness :
  invocations _ _ _
    (detailsRun (newFileCoverage file_b 1) [Call 0; Call 1; Settle 0 (inl []); Resume 1; Resume 0]
       (detailsInit (newFileCoverage file_b 1))) = [1%nat] /\
  cache _ _ _ (detailsStep (newFileCoverage file_b 1) (Resume 0)
                 (detailsRun (newFileCoverage file_b 1) [Call 0; Settle 0 (inr Cancelled)]
                    (detailsInit (newFileCoverage file_b 1)))) = None.
Proof.
  split.
  - exact (proj1 (proj1 (details_single_resolution (newFileCoverage file_b 1) eq_refl)
                    [Call 0; Call 1; Settle 0 (inl []); Resume 1; Resume 0] eq_refl)).
  - exact (proj1 (proj2 (details_single_resolution (newFileCoverage file_b 1) eq_refl)
                    (detailsRun (newFileCoverage file_b 1) [Call 0; Settle 0 (inr Cancelled)]
                       (detailsInit (newFileCoverage file_b 1))) 0%nat 0%nat Cancelled []
                    eq_refl eq_refl)).
Defined.

(** Claim C10: a leaf built from a record that carries detail entries [d]
    never calls the resolver, and every finished [details()] call returns
    [d], whatever the interleaving. *)
Theorem details_inline (leaf : FileCoverage) (d : list CoverageDetails) :
  leaf_initial_details leaf = Some d ->
  forall evs : list (Event (list CoverageDetails) ProviderError),
    let s := detailsRun leaf evs (detailsInit leaf) in
    invocations _ _ _ s = [] /\
    (forall c h o, In (c, h, o) (returned _ _ _ s) -> o = Ok d).
Proof.
  intros Hd evs s.
  assert (I0 : inv_plain nat (list CoverageDetails) ProviderError d (detailsInit leaf)).
  { unfold inv_plain, detailsInit, init. rewrite Hd. simpl. repeat split; constructor. }
  destruct (run_inv_plain _ _ _ _ (leaf_index leaf) id d evs _ I0) as (_ & _ & Hi & _ & Hr).
  split; [exact Hi|]. intros c h o I. rewrite Forall_forall in Hr. apply (Hr _ I).
Qed.

Lemma details_inline_witness :
  invocations _ _ _ (detailsRun (newFileCoverage file_c 0)
                       [Call 0; Settle 0 (inr Cancelled); Resume 0; Call 1]
                       (detailsInit (newFileCoverage file_c 0))) = [].
Proof.
  exact (proj1 (details_inline (newFileCoverage file_c 0) [mkDetail 1 1] eq_refl
                  [Call 0; Settle 0 (inr Cancelled); Resume 0; Call 1])).
Defined.

(* ------------------------------------------------------------------ *)
(** ** Further properties: the tree construction *)

Lemma calculateComputed_unfold (p : list string) (n : PNode) :
  calculateComputed p n =
  match pvalue n with
  | Some v => (node_coverage v, n)
  | None => let '(fc, cs') := calcLoop calculateComputed p (pchildren n) (calcInit p) in
            (newAbstractFileCoverage fc, mkPNode (Some (Computed (newAbstractFileCoverage fc))) cs')
  end.
Proof. destruct n as [[v|] cs]; reflexivity. Qed.

Lemma insert_cons (seg : string) (rest : list string) (v : CoverageNode) (n : PNode) :
  insert (seg :: rest) v n = mkPNode (pvalue n) (insertChildren (insert rest v) seg (pchildren n)).
Proof. reflexivity. Qed.

Lemma calcLoop_snd (p : list string) (cs : list (string * PNode)) (acc : IFileCoverage) :
  snd (calcLoop calculateComputed p cs acc) =
  map (fun sc => (fst sc, snd (calculateComputed (app p [fst sc]) (snd sc)))) cs.
Proof.
  revert acc. induction cs as [|[pre c] cs IH]; intro acc; [reflexivity|]. simpl.
  destruct (calculateComputed (app p [pre]) c) as [v c'] eqn:Ec.
  specialize (IH (addChild acc v)). destruct (calcLoop calculateComputed p cs (addChild acc v)) as [a cs''].
  simpl in *. rewrite IH. reflexivity.
Qed.

Lemma calcLoop_fst (p : list string) (cs : list (string * PNode)) (acc : IFileCoverage) :
  fst (calcLoop calculateComputed p cs acc) =
  fold_left (fun a sc => addChild a (fst (calculateComputed (app p [fst sc]) (snd sc)))) cs acc.
Proof.
  revert acc. induction cs as [|[pre c] cs IH]; intro acc; [reflexivity|]. simpl.
  destruct (calculateComputed (app p [pre]) c) as [v c'] eqn:Ec.
  specialize (IH (addChild acc v)). destruct (calcLoop calculateComputed p cs (addChild acc v)) as [a cs''].
  simpl in *. exact IH.
Qed.

Lemma lookup_child_map (seg : string) (g : string -> PNode -> PNode) (cs : list (string * PNode)) :
  lookup_child seg (map (fun sc => (fst sc, g (fst sc) (snd sc))) cs) = option_map (g seg) (lookup_child seg cs).
Proof.
  induction cs as [|[s c] cs IH]; [reflexivity|]. simpl.
  destruct (String.eqb s seg) eqn:E; [apply String.eqb_eq in E; subst; reflexivity|exact IH].
Qed.

Lemma lookup_child_In (seg : string) (cs : list (string * PNode)) (c : PNode) :
  lookup_child seg cs = Some c -> In (seg, c) cs.
Proof.
  induction cs as [|[s c'] cs IH]; simpl; [discriminate|].
  destruct (String.eqb s seg) eqn:E; intro H.
  - apply String.eqb_eq in E. injection H as <-. subst. auto.
  - auto.
Qed.

Lemma calculateComputed_snd (p : list string) (n : PNode) :
  snd (calculateComputed p n) =
  match pvalue n with
  | Some _ => n
  | None => mkPNode (Some (Computed (fst (calculateComputed p n))))
              (map (fun sc => (fst sc, snd (calculateComputed (app p [fst sc]) (snd sc)))) (pchildren n))
  end.
Proof.
  rewrite !calculateComputed_unfold. destruct (pvalue n); [reflexivity|].
  pose proof (calcLoop_snd p (pchildren n) (calcInit p)) as H.
  destruct (calcLoop calculateComputed p (pchildren n) (calcInit p)) as [fc cs']. simpl in *.
  rewrite H. reflexivity.
Qed.

Lemma calculateComputed_keeps_values (n : PNode) :
  forall p k v, find k n = Some v -> find k (snd (calculateComputed p n)) = Some v.
Proof.
  induction n as [val cs IH] using PNode_ind_children. intros p k v Hf.
  rewrite calculateComputed_snd. simpl. destruct val as [w|]; [exact Hf|].
  destruct k as [|seg rest]; [discriminate|].
  unfold find in *. simpl in *.
  rewrite (lookup_child_map seg (fun s c => snd (calculateComputed (app p [s]) c))).
  destruct (lookup_child seg cs) as [c|] eqn:Hl; [|discriminate]. simpl.
  rewrite Forall_forall in IH. apply (IH (seg, c) (lookup_child_In _ _ _ Hl)). exact Hf.
Qed.

Lemma calculateComputed_keeps_shape (n : PNode) :
  forall p k, is_found (find_node k (snd (calculateComputed p n))) = is_found (find_node k n).
Proof.
  induction n as [val cs IH] using PNode_ind_children. intros p k.
  rewrite calculateComputed_snd. simpl. destruct val as [w|]; [reflexivity|].
  destruct k as [|seg rest]; [reflexivity|]. simpl.
  rewrite (lookup_child_map seg (fun s c => snd (calculateComputed (app p [s]) c))).
  destruct (lookup_child seg cs) as [c|] eqn:Hl; [|reflexivity]. simpl.
  rewrite Forall_forall in IH. apply (IH (seg, c) (lookup_child_In _ _ _ Hl)).
Qed.

Lemma lookup_child_update (s seg : string) (f : PNode -> PNode) (cs : list (string * PNode)) :
  lookup_child s (map (fun sc => if String.eqb (fst sc) seg then (fst sc, f (snd sc)) else sc) cs) =
  if String.eqb s seg then option_map f (lookup_child s cs) else lookup_child s cs.
Proof.
  induction cs as [|[s' c] cs IH]; simpl; [destruct (String.eqb s seg); reflexivity|].
  destruct (String.eqb s' seg) eqn:E1; simpl; destruct (String.eqb s' s) eqn:E2.
  - apply String.eqb_eq in E1, E2. subst. rewrite String.eqb_refl. reflexivity.
  - apply String.eqb_eq in E1. subst. rewrite IH.
    destruct (String.eqb s seg) eqn:E3; [|reflexivity].
    apply String.eqb_eq in E3. subst. rewrite String.eqb_refl in E2. discriminate.
  - apply String.eqb_eq in E2. subst. rewrite E1. reflexivity.
  - exact IH.
Qed.

Lemma update_at_keeps_values (f : PNode -> PNode)
    (Hf : forall n k v, find k n = Some v -> find k (f n) = Some v) :
  forall key t k v, find k t = Some v -> find k (update_at key f t) = Some v.
Proof.
  induction key as [|seg rest IH]; intros t k v H; simpl; [apply Hf, H|].
  destruct k as [|s r]; [exact H|]. unfold find in *. simpl in *.
  rewrite lookup_child_update. destruct (String.eqb s seg); [|exact H].
  destruct (lookup_child s (pchildren t)) as [c|]; [|discriminate]. simpl.
  apply (IH c r v H).
Qed.

Lemma update_at_keeps_shape (f : PNode -> PNode)
    (Hf : forall n k, is_found (find_node k (f n)) = is_found (find_node k n)) :
  forall key t k, is_found (find_node k (update_at key f t)) = is_found (find_node k t).
Proof.
  induction key as [|seg rest IH]; intros t k; simpl; [apply Hf|].
  destruct k as [|s r]; [reflexivity|]. simpl.
  rewrite lookup_child_update. destruct (String.eqb s seg); [|reflexivity].
  destruct (lookup_child s (pchildren t)) as [c|]; [|reflexivity]. simpl. apply IH.
Qed.

Lemma fold_update_keeps_values (keys : list (list string)) :
  forall t k v, find k t = Some v ->
  find k (fold_left (fun t key => update_at key (fun n => snd (calculateComputed [] n)) t) keys t) = Some v.
Proof.
  induction keys as [|key keys IH]; intros t k v H; [exact H|]. simpl. apply IH.
  apply update_at_keeps_values; [|exact H]. intros n k' v'. apply calculateComputed_keeps_values.
Qed.

Lemma fold_update_keeps_shape (keys : list (list string)) :
  forall t k,
  is_found (find_node k (fold_left (fun t key => update_at key (fun n => snd (calculateComputed [] n)) t) keys t))
  = is_found (find_node k t).
Proof.
  induction keys as [|key keys IH]; intros t k; [reflexivity|]. simpl. rewrite IH.
  apply update_at_keeps_shape. intros n k'. apply calculateComputed_keeps_shape.
Qed.

Lemma insertChildren_nil (ins : PNode -> PNode) (seg : string) :
  insertChildren ins seg [] = [(seg, ins emptyNode)].
Proof. reflexivity. Qed.

Lemma insertChildren_cons (ins : PNode -> PNode) (seg s : string) (c : PNode) (cs : list (string * PNode)) :
  insertChildren ins seg ((s, c) :: cs) =
  if String.eqb s seg then (s, ins c) :: cs else (s, c) :: insertChildren ins seg cs.
Proof. reflexivity. Qed.

Lemma lookup_child_insertChildren (s seg : string) (ins : PNode -> PNode) (cs : list (string * PNode)) :
  lookup_child s (insertChildren ins seg cs) =
  if String.eqb s seg
  then Some (ins (match lookup_child seg cs with Some c => c | None => emptyNode end))
  else lookup_child s cs.
Proof.
  induction cs as [|[s' c] cs IH].
  - rewrite insertChildren_nil. simpl.
    destruct (String.eqb seg s) eqn:E1, (String.eqb s seg) eqn:E2; try reflexivity;
      [apply String.eqb_eq in E1; subst; rewrite String.eqb_refl in E2; discriminate
      |apply String.eqb_eq in E2; subst; rewrite String.eqb_refl in E1; discriminate].
  - rewrite insertChildren_cons. destruct (String.eqb s' seg) eqn:E1; cbn [lookup_child].
    + apply String.eqb_eq in E1. subst. rewrite String.eqb_refl.
      destruct (String.eqb seg s) eqn:E2, (String.eqb s seg) eqn:E3; try reflexivity;
        [apply String.eqb_eq in E2; subst; rewrite String.eqb_refl in E3; discriminate
        |apply String.eqb_eq in E3; subst; rewrite String.eqb_refl in E2; discriminate].
    + rewrite E1. destruct (String.eqb s' s) eqn:E2.
      * apply String.eqb_eq in E2. subst. rewrite E1. reflexivity.
      * exact IH.
Qed.

Lemma find_emptyNode (k : list string) : find k emptyNode = None.
Proof. destruct k; reflexivity. Qed.





Lemma insertFiles_root_absent (s : string) (i : nat) (files : list IFileCoverage) (t : PNode) :
  (forall f, In f files -> scheme (file_uri f) <> s) ->
  lookup_child s (pchildren t) = None ->
  lookup_child s (pchildren (insertFiles i files t)) = None.
Proof.
  revert i t. induction files as [|g files IH]; intros i t Hs Ht; [exact Ht|].
  cbn [insertFiles]. apply IH; [intros f Hf; apply Hs; simpl; auto|].
  unfold treePathForUri. rewrite insert_cons. cbn [pchildren]. rewrite lookup_child_insertChildren.
  destruct (String.eqb s (scheme (file_uri g))) eqn:E; [|exact Ht].
  apply String.eqb_eq in E. exfalso. apply (Hs g); simpl; auto.
Qed.

(** Every value placed by the insertion loop of [createFileCoverage] is still
    at its key in the returned tree: the aggregation pass never overwrites a
    leaf. *)
Theorem createFileCoverage_keeps_leaves (files : list IFileCoverage) (k : list string) (v : CoverageNode) :
  find k (insertFiles 0 files emptyNode) = Some v -> find k (createFileCoverage files) = Some v.
Proof. intro H. unfold createFileCoverage, computeAll. apply fold_update_keeps_values, H. Qed.

Lemma createFileCoverage_keeps_leaves_witness :
  find ["file"; ""; ""; "a.ts"] (insertFiles 0 [file_a] emptyNode) = Some (Leaf (newFileCoverage file_a 0)) /\
  find ["file"; ""; ""; "a.ts"] (createFileCoverage [file_a]) = Some (Leaf (newFileCoverage file_a 0)).
Proof.
  assert (H : find ["file"; ""; ""; "a.ts"] (insertFiles 0 [file_a] emptyNode)
              = Some (Leaf (newFileCoverage file_a 0))) by reflexivity.
  split; [exact H|]. apply (createFileCoverage_keeps_leaves [file_a] _ _ H).
Defined.



(** When every file the provider returned has a non-empty scheme, [getUri]
    finds nothing for a URI whose path starts with ['/']: its lookup key
    begins with the empty segment, and the first level of the tree holds the
    schemes. *)
Theorem getUri_absolute_path_not_found (files : list IFileCoverage) (u : URI) (rest : string) :
  (forall f, In f files -> scheme (file_uri f) <> "") ->
  path u = String "/" rest ->
  getUri u (createFileCoverage files) = None.
Proof.
  intros Hs Hp. unfold getUri, split_slash. rewrite Hp. simpl.
  unfold find. destruct (find_node ("" :: split_aux rest "") (createFileCoverage files)) eqn:E;
    [|reflexivity].
  exfalso.
  pose proof (fold_update_keeps_shape (positions (insertFiles 0 files emptyNode))
                (insertFiles 0 files emptyNode) ("" :: split_aux rest "")) as Hk.
  unfold createFileCoverage, computeAll in E. rewrite E in Hk. simpl in Hk.
  rewrite (insertFiles_root_absent "" 0 files emptyNode Hs eq_refl) in Hk. discriminate.
Qed.

Lemma getUri_absolute_path_not_found_witness :
  getUri (mkURI "file" "" "/b.ts") (createFileCoverage [file_a; file_b]) = None.
Proof.
  apply (getUri_absolute_path_not_found _ _ "b.ts"); [|reflexivity].
  intros f [<-|[<-|[]]]; discriminate.
Defined.

Lemma fold_left_map_fn {X Y Acc} (f : Acc -> Y -> Acc) (g : X -> Y) (l : list X) (a : Acc) :
  fold_left (fun a x => f a (g x)) l a = fold_left f (map g l) a.
Proof. revert a. induction l as [|x l IH]; intro a; [reflexivity|]. apply IH. Qed.

Lemma sum_covered_app (l1 l2 : list ICoveredCount) :
  sum_covered (app l1 l2) = (sum_covered l1 + sum_covered l2)%nat.
Proof. induction l1 as [|c l1 IH]; simpl; lia. Qed.

Lemma sum_total_app (l1 l2 : list ICoveredCount) :
  sum_total (app l1 l2) = (sum_total l1 + sum_total l2)%nat.
Proof. induction l1 as [|c l1 IH]; simpl; lia. Qed.

Lemma fold_addChild_uri (vs : list AbstractFileCoverage) (acc : IFileCoverage) :
  file_uri (fold_left addChild vs acc) = file_uri acc.
Proof. revert acc. induction vs as [|v vs IH]; intro acc; [reflexivity|]. simpl. rewrite IH. reflexivity. Qed.

Lemma fold_addChild_statement (vs : list AbstractFileCoverage) (acc : IFileCoverage) :
  file_statement (fold_left addChild vs acc) =
  mkCount (covered (file_statement acc) + sum_covered (map statement vs))
          (total (file_statement acc) + sum_total (map statement vs)).
Proof.
  revert acc. induction vs as [|v vs IH]; intro acc; simpl.
  - destruct (file_statement acc). simpl. f_equal; lia.
  - rewrite IH. simpl. f_equal; lia.
Qed.

Lemma fold_addChild_branch (vs : list AbstractFileCoverage) (acc : IFileCoverage) :
  let d := match file_branch acc with Some x => x | None => emptyCounts end in
  let bs := flat_map (fun v => opt_list (branch v)) vs in
  file_branch (fold_left addChild vs acc) =
  match bs with
  | [] => file_branch acc
  | _ => Some (mkCount (covered d + sum_covered bs) (total d + sum_total bs))
  end.
Proof.
  revert acc. induction vs as [|v vs IH]; intro acc; [reflexivity|]. cbn zeta in *. cbn [fold_left flat_map].
  rewrite (IH (addChild acc v)). unfold addChild. cbn [file_branch].
  destruct (branch v) as [b|]; cbn [opt_list app]; [|reflexivity].
  destruct (flat_map (fun v => opt_list (branch v)) vs) as [|b' bs'] eqn:E;
    cbn [sum_covered sum_total fold_right]; unfold sumCounts; simpl; f_equal; f_equal; lia.
Qed.

Lemma calculateComputed_aggregate_eq (p : list string) (n : PNode) :
  pvalue n = None ->
  let vs := childValues p n in
  let bs := flat_map (fun v => opt_list (branch v)) vs in
  let agg := match bs with [] => None | _ => Some (mkCount (sum_covered bs) (sum_total bs)) end in
  fst (calculateComputed p n) =
  {| uri := treePathToUri p;
     statement := mkCount (sum_covered (map statement vs)) (sum_total (map statement vs));
     branch := agg;
     function := agg |}.
Proof.
  intros Hn vs bs agg. rewrite calculateComputed_unfold, Hn.
  pose proof (calcLoop_fst p (pchildren n) (calcInit p)) as H.
  destruct (calcLoop calculateComputed p (pchildren n) (calcInit p)) as [fc cs'].
  cbn [fst] in *.
  rewrite (fold_left_map_fn addChild (fun sc => fst (calculateComputed (app p [fst sc]) (snd sc)))) in H.
  fold (childValues p n) in H. fold vs in H.
  pose proof (fold_addChild_uri vs (calcInit p)) as Hu.
  pose proof (fold_addChild_statement vs (calcInit p)) as Hs.
  pose proof (fold_addChild_branch vs (calcInit p)) as Hb.
  rewrite <- H in Hu, Hs, Hb. cbn zeta in Hb. fold bs in Hb.
  unfold newAbstractFileCoverage. rewrite Hu, Hs, Hb.
  assert (Hagg : match bs with
                 | [] => file_branch (calcInit p)
                 | _ :: _ => Some (mkCount (covered (match file_branch (calcInit p) with
                                              Some x => x | None => emptyCounts end) + sum_covered bs)
                                           (total (match file_branch (calcInit p) with
                                              Some x => x | None => emptyCounts end) + sum_total bs))
                 end = agg) by (unfold agg; destruct bs; reflexivity).
  rewrite Hagg. reflexivity.
Qed.

(** A position without a value of its own is given, by [calculateComputed],
    the sums of its children's values: its statement counts add up the
    children's statement counts, its branch counts add up the branch counts
    of the children that have some (and stay undefined when none has), its
    function counts are those same branch sums, and its URI is [URI.from] of its path,
    [treePathToUri]. This holds wherever the source returns, i.e. where no
    [URI.from] call of the computation throws. *)
Theorem calculateComputed_aggregates (p : list string) (n : PNode) :
  pvalue n = None -> uriFromSucceeds p n = true ->
  let vs := childValues p n in
  let bs := flat_map (fun v => opt_list (branch v)) vs in
  let agg := match bs with [] => None | _ => Some (mkCount (sum_covered bs) (sum_total bs)) end in
  fst (calculateComputed p n) =
  {| uri := treePathToUri p;
     statement := mkCount (sum_covered (map statement vs)) (sum_total (map statement vs));
     branch := agg;
     function := agg |}.
Proof. intros Hn _. apply calculateComputed_aggregate_eq, Hn. Qed.

Lemma calculateComputed_aggregates_witness :
  pvalue (insertFiles 0 [file_x; file_br] emptyNode) = None /\
  uriFromSucceeds [] (insertFiles 0 [file_x; file_br] emptyNode) = true /\
  fst (calculateComputed [] (insertFiles 0 [file_x; file_br] emptyNode)) =
  (let vs := childValues [] (insertFiles 0 [file_x; file_br] emptyNode) in
   let bs := flat_map (fun v => opt_list (branch v)) vs in
   let agg := match bs with [] => None | _ => Some (mkCount (sum_covered bs) (sum_total bs)) end in
   {| uri := treePathToUri [];
      statement := mkCount (sum_covered (map statement vs)) (sum_total (map statement vs));
      branch := agg; function := agg |}).
Proof.
  assert (H : pvalue (insertFiles 0 [file_x; file_br] emptyNode) = None) by reflexivity.
  assert (H' : uriFromSucceeds [] (insertFiles 0 [file_x; file_br] emptyNode) = true) by (vm_compute; reflexivity).
  split; [exact H|]. split; [exact H'|]. apply (calculateComputed_aggregates [] _ H H').
Defined.

Lemma all_values_eq (P : CoverageNode -> Prop) (v : option CoverageNode) (cs : list (string * PNode)) :
  all_values P (mkPNode v cs) <->
  (match v with Some x => P x | None => True end) /\ Forall (fun sc => all_values P (snd sc)) cs.
Proof.
  cbn [all_values]. split; intros [H1 H2]; split; auto; clear H1.
  - induction cs as [|[s c] cs IH]; [constructor|].
    destruct H2 as [Hc Hr]. constructor; auto.
  - induction cs as [|[s c] cs IH]; [exact I|].
    inversion H2 as [|sc l Hc Hr]; subst. split; [exact Hc|exact (IH Hr)].
Qed.

Lemma all_values_insert (P : CoverageNode -> Prop) (k : list string) (v : CoverageNode) :
  P v -> forall t, all_values P t -> all_values P (insert k v t).
Proof.
  intro Hv. induction k as [|seg rest IH]; intros [tv tcs] Ht; apply all_values_eq in Ht as [Htv Htc].
  - apply all_values_eq. split; [exact Hv|exact Htc].
  - rewrite insert_cons. apply all_values_eq. split; [exact Htv|]. cbn [pchildren].
    induction tcs as [|[s c] tcs IHc].
    + rewrite insertChildren_nil. constructor; [|constructor]. apply IH. apply all_values_eq. auto.
    + inversion Htc as [|sc l Hc Hr]; subst. rewrite insertChildren_cons.
      destruct (String.eqb s seg); constructor; cbn [snd] in *; auto.
Qed.

Lemma insertFiles_built (i : nat) (files : list IFileCoverage) (t : PNode) :
  all_values built_by_constructor t -> all_values built_by_constructor (insertFiles i files t).
Proof.
  revert i t. induction files as [|f files IH]; intros i t Ht; [exact Ht|]. cbn [insertFiles].
  apply IH, all_values_insert; [reflexivity|exact Ht].
Qed.

Lemma calculateComputed_fst_built (q : list string) (c : PNode) :
  match pvalue c with Some x => built_by_constructor x | None => True end ->
  function (fst (calculateComputed q c)) = branch (fst (calculateComputed q c)).
Proof.
  intro H. rewrite calculateComputed_unfold. destruct (pvalue c) as [x|]; [exact H|].
  destruct (calcLoop calculateComputed q (pchildren c) (calcInit q)) as [fc cs']. reflexivity.
Qed.

(** Claim C6: the aggregation returns a position that holds a value
    unchanged, so leaves are never overwritten. For a position without a
    value (where the source returns), it builds a node whose statement
    counts are the sums of its children's statement counts. Its branch
    counts, and likewise its function counts, are the sums over the
    children that have them, and are undefined when no child has them. The
    function part relies on every node being built by the shared
    constructor, which holds for every value the insertion loop stores.
    With the leaves [a/b/x] {1,2} and [a/b/y] {3,4}, the aggregates at
    [a/b] and at [a] both have statement {4,6}. *)
Theorem calculateComputed_sums_children (p : list string) (n : PNode) :
  (forall v, pvalue n = Some v -> calculateComputed p n = (node_coverage v, n)) /\
  (pvalue n = None -> uriFromSucceeds p n = true -> all_values built_by_constructor n ->
   let vs := childValues p n in
   let sumOf (l : list ICoveredCount) :=
     match l with [] => None | _ => Some (mkCount (sum_covered l) (sum_total l)) end in
   statement (fst (calculateComputed p n)) = mkCount (sum_covered (map statement vs)) (sum_total (map statement vs)) /\
   branch (fst (calculateComputed p n)) = sumOf (flat_map (fun v => opt_list (branch v)) vs) /\
   function (fst (calculateComputed p n)) = sumOf (flat_map (fun v => opt_list (function v)) vs)) /\
  (forall files, all_values built_by_constructor (insertFiles 0 files emptyNode)) /\
  (let t1 := createFileCoverage [file_x; file_y] in
   find ["file"; ""; "a"; "b"; "x"] t1 = Some (Leaf (newFileCoverage file_x 0)) /\
   option_map (fun v => statement (node_coverage v)) (find ["file"; ""; "a"; "b"] t1) = Some (mkCount 4 6) /\
   option_map (fun v => statement (node_coverage v)) (find ["file"; ""; "a"] t1) = Some (mkCount 4 6)).
Proof.
  split; [|split; [|split]].
  - intros v Hv. destruct n as [[w|] cs]; cbn in Hv |- *; congruence.
  - intros Hn _ Hb vs sumOf. rewrite (calculateComputed_aggregate_eq p n Hn). cbn [statement branch function].
    split; [reflexivity|]. split; [reflexivity|].
    assert (Hf : flat_map (fun v => opt_list (branch v)) vs = flat_map (fun v => opt_list (function v)) vs).
    { unfold vs, childValues. destruct n as [nv cs]. apply all_values_eq in Hb as [_ Hc].
      cbn [pchildren]. induction Hc as [|[s c] cs Hc _ IH]; [reflexivity|]. cbn [map flat_map].
      f_equal; [|exact (IH Hn)]. cbn [snd fst] in *.
      rewrite calculateComputed_fst_built; [reflexivity|].
      destruct c as [[x|] cc]; [apply all_values_eq in Hc as [Hx _]; exact Hx|exact I]. }
    unfold sumOf, vs in *. cbv zeta. rewrite Hf. reflexivity.
  - intro files. apply insertFiles_built. cbn. auto.
  - vm_compute. repeat split.
Qed.

Lemma calculateComputed_sums_children_witness :
  pvalue (insertFiles 0 [file_fn; file_br] emptyNode) = None /\
  uriFromSucceeds [] (insertFiles 0 [file_fn; file_br] emptyNode) = true /\
  function (fst (calculateComputed [] (insertFiles 0 [file_fn; file_br] emptyNode))) =
  (let vs := childValues [] (insertFiles 0 [file_fn; file_br] emptyNode) in
   let fs := flat_map (fun v => opt_list (function v)) vs in
   match fs with [] => None | _ => Some (mkCount (sum_covered fs) (sum_total fs)) end).
Proof.
  assert (H : pvalue (insertFiles 0 [file_fn; file_br] emptyNode) = None) by reflexivity.
  assert (H' : uriFromSucceeds [] (insertFiles 0 [file_fn; file_br] emptyNode) = true) by (vm_compute; reflexivity).
  pose proof (calculateComputed_sums_children [] (insertFiles 0 [file_fn; file_br] emptyNode)) as T.
  destruct T as (_ & T2 & T3 & _).
  split; [exact H|]. split; [exact H'|]. exact (proj2 (proj2 (T2 H H' (T3 [file_fn; file_br])))).
Defined.








(** The aggregation pass neither adds nor removes a position: a key leads to
    a node of the tree [createFileCoverage] returns exactly when it leads
    to one in the tree the insertion loop built. *)
Theorem createFileCoverage_same_positions (files : list IFileCoverage) (k : list string) :
  is_found (find_node k (createFileCoverage files)) = is_found (find_node k (insertFiles 0 files emptyNode)).
Proof. unfold createFileCoverage, computeAll. apply fold_update_keeps_shape. Qed.

Lemma positions_eq (v : option CoverageNode) (cs : list (string * PNode)) :
  positions (mkPNode v cs) = flat_map (fun sc => [fst sc] :: map (cons (fst sc)) (positions (snd sc))) cs.
Proof. induction cs as [|[s c] cs IH]; [reflexivity|]. cbn [flat_map fst snd]. rewrite <- IH. reflexivity. Qed.

Lemma positions_complete (k : list string) :
  forall t m, find_node k t = Some m -> k <> [] -> In k (positions t).
Proof.
  induction k as [|seg rest IH]; intros t m Hf Hk; [congruence|].
  destruct t as [tv tcs]. cbn [find_node pchildren] in Hf. rewrite positions_eq. apply in_flat_map.
  destruct (lookup_child seg tcs) as [c|] eqn:Hl; [|discriminate].
  exists (seg, c). split; [apply lookup_child_In, Hl|]. cbn [fst snd].
  destruct rest as [|s r].
  - left. reflexivity.
  - right. apply in_map. apply (IH c m Hf). discriminate.
Qed.

Lemma find_node_update_at (k : list string) (f : PNode -> PNode) (t : PNode) :
  find_node k (update_at k f t) = option_map f (find_node k t).
Proof.
  revert t. induction k as [|seg rest IH]; intro t; [reflexivity|]. cbn [update_at find_node pchildren].
  rewrite lookup_child_update, String.eqb_refl.
  destruct (lookup_child seg (pchildren t)) as [c|]; [apply IH|reflexivity].
Qed.

Lemma calculateComputed_has_value (p : list string) (n : PNode) :
  is_found (pvalue (snd (calculateComputed p n))) = true.
Proof.
  rewrite calculateComputed_snd. destruct (pvalue n) eqn:E; [rewrite E|]; reflexivity.
Qed.

Lemma fold_update_fills (keys : list (list string)) :
  forall t k, In k keys -> is_found (find_node k t) = true ->
  is_found (find k (fold_left (fun t key => update_at key (fun n => snd (calculateComputed [] n)) t) keys t)) = true.
Proof.
  induction keys as [|key keys IH]; intros t k Hin Hk; [destruct Hin|]. cbn [fold_left].
  destruct Hin as [->|Hin].
  - destruct (find k (update_at k (fun n => snd (calculateComputed [] n)) t)) as [v|] eqn:E.
    + rewrite (fold_update_keeps_values keys _ k v E). reflexivity.
    + exfalso. unfold find in E. rewrite find_node_update_at in E.
      destruct (find_node k t) as [m|]; [|discriminate]. cbn [option_map] in E.
      pose proof (calculateComputed_has_value [] m) as Hv. rewrite E in Hv. discriminate.
  - apply IH; [exact Hin|]. rewrite update_at_keeps_shape; [exact Hk|].
    intros n k'. apply calculateComputed_keeps_shape.
Qed.

(** Every position below the root of the tree [createFileCoverage] returns
    holds a value: [files.find(key)] is defined for every key that leads to
    a node, except the empty key of the root. *)
Theorem createFileCoverage_all_positions_valued (files : list IFileCoverage) (k : list string) :
  k <> [] -> is_found (find_node k (createFileCoverage files)) = true ->
  is_found (find k (createFileCoverage files)) = true.
Proof.
  intros Hk Hf. unfold createFileCoverage, computeAll in Hf. rewrite fold_update_keeps_shape in Hf.
  destruct (find_node k (insertFiles 0 files emptyNode)) as [m|] eqn:E; [|discriminate].
  unfold createFileCoverage, computeAll. apply fold_update_fills.
  - apply (positions_complete k _ m E Hk).
  - rewrite E. reflexivity.
Qed.

Lemma createFileCoverage_all_positions_valued_witness :
  is_found (find ["file"; ""; "a"; "b"] (createFileCoverage [file_x; file_y])) = true.
Proof.
  apply createFileCoverage_all_positions_valued; [discriminate|vm_compute; reflexivity].
Defined.

(* ------------------------------------------------------------------ *)
(** ** Further properties: the displayed numbers *)

Lemma minimum_below_present (c : AbstractFileCoverage) :
  Forall (fun cc => (calculateDisplayedStat c Minimum <= percent cc)%Q) (present_counts c).
Proof.
  destruct c as [u st [b|] [f|]]; unfold present_counts; simpl; repeat constructor.
  - eapply Qle_trans; [apply Qmin_le_l|apply Qmin_le_l].
  - eapply Qle_trans; [apply Qmin_le_l|apply Qmin_le_r].
  - apply Qmin_le_r.
  - apply Qmin_le_l.
  - apply Qmin_le_r.
  - apply Qmin_le_l.
  - apply Qmin_le_r.
  - apply Qle_refl.
Qed.

Lemma nat_to_Q_add (a b : nat) : nat_to_Q (a + b) == nat_to_Q a + nat_to_Q b.
Proof. unfold nat_to_Q. rewrite Nat2Z.inj_add, inject_Z_plus. reflexivity. Qed.

Lemma nat_to_Q_nonneg (a : nat) : 0 <= nat_to_Q a.
Proof. unfold nat_to_Q. change 0%Q with (inject_Z 0). rewrite <- Zle_Qle. lia. Qed.

Lemma below_percent_scaled (m : Q) (cc : ICoveredCount) :
  m <= percent cc -> m * nat_to_Q (total cc) <= nat_to_Q (covered cc).
Proof.
  unfold percent. destruct (Nat.eqb (total cc) 0) eqn:E; intro H.
  - apply Nat.eqb_eq in E. rewrite E. unfold nat_to_Q at 1. simpl. rewrite Qmult_0_r. apply nat_to_Q_nonneg.
  - apply Nat.eqb_neq in E. pose proof (nat_to_Q_pos _ E) as Hp.
    pose proof (Qmult_le_compat_r _ _ _ H (Qlt_le_weak _ _ Hp)) as H2.
    rewrite (Qmult_comm (nat_to_Q (covered cc) / nat_to_Q (total cc))) in H2.
    rewrite Qmult_div_r in H2 by (intro Z; rewrite Z in Hp; apply (Qlt_irrefl 0), Hp).
    exact H2.
Qed.

Lemma below_percents_sum (m : Q) (l : list ICoveredCount) :
  Forall (fun cc => m <= percent cc) l -> m * nat_to_Q (sum_total l) <= nat_to_Q (sum_covered l).
Proof.
  induction 1 as [|cc l Hcc _ IH]; cbn [sum_total sum_covered fold_right].
  - unfold nat_to_Q. simpl. rewrite Qmult_0_r. apply Qle_refl.
  - fold (sum_total l) (sum_covered l) in *.
    rewrite !nat_to_Q_add, Qmult_plus_distr_r.
    apply Qplus_le_compat; [apply below_percent_scaled, Hcc|exact IH].
Qed.

(** The Minimum display mode never shows more than the Total-coverage
    mode: the smallest category percent is at most [tpc], the ratio of the
    summed counts. *)
Theorem minimum_le_total_coverage (c : AbstractFileCoverage) :
  calculateDisplayedStat c Minimum <= calculateDisplayedStat c TotalCoverage.
Proof.
  pose proof (minimum_below_present c) as Hm.
  change (calculateDisplayedStat c TotalCoverage) with (tpc c).
  revert Hm. generalize (calculateDisplayedStat c Minimum) as m. intros m Hm.
  rewrite tpc_sums. destruct (Nat.eqb (sum_total (present_counts c)) 0) eqn:E.
  - apply Nat.eqb_eq in E. inversion Hm as [|cc l Hst _ Hcc]. unfold present_counts in *.
    cbn [sum_total fold_right] in E.
    assert (H1 : percent (statement c) = 1%Q)
      by (unfold percent; replace (Nat.eqb (total (statement c)) 0) with true
            by (symmetry; apply Nat.eqb_eq; lia); reflexivity).
    rewrite H1 in Hst. exact Hst.
  - apply Nat.eqb_neq in E. apply Qle_shift_div_l; [apply nat_to_Q_pos, E|].
    apply below_percents_sum, Hm.
Qed.

Lemma percent_nonneg (cc : ICoveredCount) : 0 <= percent cc.
Proof.
  unfold percent. destruct (Nat.eqb (total cc) 0) eqn:E; [discriminate|].
  apply Nat.eqb_neq in E. apply Qle_shift_div_l; [apply nat_to_Q_pos, E|].
  rewrite Qmult_0_l. apply nat_to_Q_nonneg.
Qed.

Lemma percent_le_one (cc : ICoveredCount) : (covered cc <= total cc)%nat -> percent cc <= 1.
Proof.
  intro H. unfold percent. destruct (Nat.eqb (total cc) 0) eqn:E; [apply Qle_refl|].
  apply Nat.eqb_neq in E. apply Qle_shift_div_r; [apply nat_to_Q_pos, E|].
  rewrite Qmult_1_l. apply nat_to_Q_le, H.
Qed.

Lemma tpc_nonneg (c : AbstractFileCoverage) : 0 <= tpc c.
Proof.
  rewrite tpc_sums. destruct (Nat.eqb _ 0) eqn:E; [discriminate|].
  apply Nat.eqb_neq in E. apply Qle_shift_div_l; [apply nat_to_Q_pos, E|].
  rewrite Qmult_0_l. apply nat_to_Q_nonneg.
Qed.

(** When no present category reports more covered items than it has, every
    display mode of [calculateDisplayedStat] gives a fraction between 0 and
    1, which [displayPercent] then shows as a percentage between 0 and 100. *)
Theorem calculateDisplayedStat_in_unit (c : AbstractFileCoverage) (mode : TestingDisplayedCoveragePercent) :
  Forall (fun cc => (covered cc <= total cc)%nat) (present_counts c) ->
  0 <= calculateDisplayedStat c mode <= 1.
Proof.
  intro Hc. destruct mode; split.
  - apply percent_nonneg.
  - apply percent_le_one. inversion Hc; assumption.
  - destruct c as [u st [b|] [f|]]; cbn [calculateDisplayedStat branch function statement];
      repeat apply Q.min_glb; apply percent_nonneg.
  - pose proof (minimum_below_present c) as Hm. inversion Hm as [|cc l Hst _ Hcc].
    eapply Qle_trans; [exact Hst|]. apply percent_le_one. inversion Hc; assumption.
  - apply tpc_nonneg.
  - cbn [calculateDisplayedStat]. rewrite tpc_sums. destruct (Nat.eqb _ 0) eqn:E; [apply Qle_refl|].
    apply Nat.eqb_neq in E. apply Qle_shift_div_r; [apply nat_to_Q_pos, E|].
    rewrite Qmult_1_l. apply nat_to_Q_le, sum_covered_le, Hc.
Qed.

Lemma calculateDisplayedStat_in_unit_witness :
  0 <= calculateDisplayedStat (newAbstractFileCoverage file_br) Minimum <= 1.
Proof.
  apply calculateDisplayedStat_in_unit. vm_compute. repeat constructor; lia.
Defined.

(* ------------------------------------------------------------------ *)
(** ** Further properties: the coverage bars *)

(** [colorThresholds.find(...)] always finds a threshold, so the [!] of
    [renderBar] never fails: a fraction of at least 0.9 is green, one in
    [0.8, 0.9) yellow, and anything below 0.8 red. *)
Theorem findColor_classes (p : Q) :
  (findColor p = Some chartsGreen <-> 9 # 10 <= p) /\
  (findColor p = Some chartsYellow <-> 8 # 10 <= p /\ p < 9 # 10) /\
  (findColor p = Some chartsRed <-> p < 8 # 10).
Proof.
  unfold findColor, colorThresholds. cbn [List.find meets snd].
  destruct (Qle_bool (9 # 10) p) eqn:E9; [|destruct (Qle_bool (8 # 10) p) eqn:E8];
    cbn [option_map fst].
  - apply Qle_bool_iff in E9.
    repeat split; intros; try discriminate; try reflexivity; try lra;
      match goal with H : _ /\ _ |- _ => destruct H; lra end.
  - apply Qle_bool_iff in E8.
    assert (H9 : p < 9 # 10) by (apply Qnot_le_lt; rewrite <- Qle_bool_iff, E9; discriminate).
    repeat split; intros; try discriminate; try reflexivity; try lra.
  - assert (H8 : p < 8 # 10) by (apply Qnot_le_lt; rewrite <- Qle_bool_iff, E8; discriminate).
    repeat split; intros; try discriminate; try reflexivity; try lra;
      match goal with H : _ /\ _ |- _ => destruct H; lra end.
Qed.

Lemma findColor_some (p : Q) : is_found (findColor p) = true.
Proof.
  unfold findColor, colorThresholds. cbn [List.find meets snd].
  destruct (Qle_bool (9 # 10) p), (Qle_bool (8 # 10) p); reflexivity.
Qed.

Lemma renderBar_some (bar : Bar) (p : Q) :
  renderBar bar (Some p) = Some (mkBar (Some DisplayBlock) (Some (p * 100)) (findColor p)).
Proof.
  unfold renderBar. pose proof (findColor_some p) as H.
  destruct (findColor p); [reflexivity|discriminate].
Qed.

(** [renderBar] never throws. Given a number it shows the bar with width
    [pct * 100] and the threshold colour; given [undefined] it only hides
    the bar, which keeps the width and colour of its last rendering. *)
Theorem renderBar_never_throws (bar : Bar) (pct : option Q) :
  exists bar', renderBar bar pct = Some bar' /\
  match pct with
  | Some p => bar' = mkBar (Some DisplayBlock) (Some (p * 100)) (findColor p) /\ findColor p <> None
  | None => bar_display bar' = Some DisplayNone /\ bar_width bar' = bar_width bar /\
            bar_color bar' = bar_color bar
  end.
Proof.
  destruct pct as [p|].
  - eexists. split; [apply renderBar_some|]. split; [reflexivity|].
    pose proof (findColor_some p) as H. destruct (findColor p); [discriminate|discriminate].
  - eexists. split; [reflexivity|]. repeat split.
Qed.

(** The full (non-compact) rendering writes all three [renderBar] calls to
    the [statement] element and leaves [method] and [branch] untouched: the
    statement bar ends up showing the branch fraction, and is hidden (with
    the width and colour of the function fraction, or else of the statement
    fraction) when the node has no branch counts. *)
Theorem render_full_statement_bar (c : AbstractFileCoverage) (mode : TestingDisplayedCoveragePercent)
    (o : string) (st me br : Bar) :
  render c mode (FullEls o st me br) =
  Some (FullEls (displayPercent (calculateDisplayedStat c mode))
          (match branch c with
           | Some b => mkBar (Some DisplayBlock) (Some (percent b * 100)) (findColor (percent b))
           | None =>
               let last := match function c with Some f => percent f | None => percent (statement c) end in
               mkBar (Some DisplayNone) (Some (last * 100)) (findColor last)
           end) me br).
Proof.
  unfold render. rewrite renderBar_some.
  destruct (function c) as [f|]; cbn [option_map]; [rewrite renderBar_some|cbn [renderBar]];
    destruct (branch c) as [b|]; cbn [option_map]; try rewrite renderBar_some; reflexivity.
Qed.

Lemma render_ok (c : AbstractFileCoverage) (mode : TestingDisplayedCoveragePercent) (e : Elements) :
  exists e', render c mode e = Some e' /\ overallText e' = displayPercent (calculateDisplayedStat c mode).
Proof.
  destruct e as [o bar|o st me br]; unfold render; rewrite renderBar_some; cbn [option_map].
  - eexists. split; reflexivity.
  - destruct (function c) as [f|]; cbn [option_map]; [rewrite renderBar_some|cbn [renderBar]];
      destruct (branch c) as [b|]; cbn [option_map]; try rewrite renderBar_some;
      eexists; split; reflexivity.
Qed.

Lemma last_default {T} (a : T) (l : list T) (d d' : T) : last (a :: l) d = last (a :: l) d'.
Proof. revert a. induction l as [|x l IH]; intro a; [reflexivity|]. cbn [last]. apply IH. Qed.

Lemma setCoverageInfos_later (mode : TestingDisplayedCoveragePercent) (rest : list AbstractFileCoverage) :
  forall c b x, _coverage b = Some x ->
  exists b', setCoverageInfos (map Some (c :: rest)) mode b = Some b' /\
    _coverage b' = Some x /\ appended b' = appended b /\ fired b' = (S (List.length rest) + fired b)%nat /\
    listeners b' = app (listeners b) (c :: rest) /\ compact b' = compact b /\
    overallText (elValue b') = displayPercent (calculateDisplayedStat (last (c :: rest) c) mode).
Proof.
  induction rest as [|c2 rest IH]; intros c b x Hx;
    cbn [map setCoverageInfos]; unfold setCoverageInfo at 1; rewrite Hx;
    destruct (render_ok c mode (elValue b)) as [e [Hr He]]; rewrite Hr.
  - eexists. repeat split; cbn; auto.
  - destruct (IH c2 {| compact := compact b; el := Some e; _coverage := Some x;
                      listeners := app (listeners b) [c]; appended := appended b;
                      fired := S (fired b) |} x eq_refl) as [b' (H1 & H2 & H3 & H4 & H5 & H6 & H7)].
    cbn [map] in H1. exists b'. cbn [setCoverageInfos] in H1. rewrite H1.
    cbn [_coverage appended fired listeners compact] in *.
    repeat split; auto.
    + cbn [List.length]. lia.
    + rewrite H5, <- app_assoc. reflexivity.
    + rewrite H7, (last_default c2 rest c2 c). reflexivity.
Qed.

(** Successive [setCoverageInfo] calls on a new widget keep the first
    coverage as [_coverage] (the one the hovers read), append the root to
    the container once, register one configuration listener per call and
    fire the change event once per call. *)
Theorem setCoverageInfo_keeps_first (cmp : bool) (mode : TestingDisplayedCoveragePercent)
    (c : AbstractFileCoverage) (rest : list AbstractFileCoverage) :
  exists b', setCoverageInfos (map Some (c :: rest)) mode (newBars cmp) = Some b' /\
    _coverage b' = Some c /\ appended b' = 1%nat /\ fired b' = S (List.length rest) /\
    listeners b' = c :: rest /\ compact b' = cmp.
Proof.
  destruct (render_ok c mode (elValue (newBars cmp))) as [e [Hr He]].
  pose (b1 := {| compact := cmp; el := Some e; _coverage := Some c; listeners := [c];
                 appended := 1; fired := 1 |}).
  assert (H0 : setCoverageInfo (Some c) mode (newBars cmp) = Some b1)
    by (unfold setCoverageInfo; cbn [_coverage newBars]; rewrite Hr; reflexivity).
  change (setCoverageInfos (map Some (c :: rest)) mode (newBars cmp))
    with (match setCoverageInfo (Some c) mode (newBars cmp) with
          | None => None | Some b' => setCoverageInfos (map Some rest) mode b' end).
  rewrite H0. destruct rest as [|c2 rest].
  - exists b1. repeat split.
  - destruct (setCoverageInfos_later mode rest c2 b1 c eq_refl) as [b' (H1 & H2 & H3 & H4 & H5 & H6 & _)].
    exists b'. split; [exact H1|]. repeat split; auto.
    + rewrite H4. cbn. lia.
Qed.

Lemma setCoverageInfo_step (c : option AbstractFileCoverage) (mode : TestingDisplayedCoveragePercent)
    (b b1 : Bars) :
  setCoverageInfo c mode b = Some b1 ->
  (forall x, _coverage b = Some x -> _coverage b1 = Some x) /\
  (c = None -> b1 = b /\ _coverage b = None) /\
  (forall y, c = Some y -> _coverage b1 <> None).
Proof.
  unfold setCoverageInfo. intro H.
  destruct c as [y|], (_coverage b) as [x|] eqn:Hb.
  - destruct (render y mode (elValue b)) as [e|]; [|discriminate]. injection H as <-.
    cbn [_coverage]. split; [intros x' Hx; injection Hx as ->; reflexivity|].
    split; [discriminate|intros y' _; discriminate].
  - destruct (render y mode (elValue b)) as [e|]; [|discriminate]. injection H as <-.
    cbn [_coverage]. split; [discriminate|]. split; [discriminate|intros y' _; discriminate].
  - discriminate.
  - injection H as <-. split; [rewrite Hb; discriminate|]. split; [auto|discriminate].
Qed.

Lemma setCoverageInfos_keeps (mode : TestingDisplayedCoveragePercent) (cs : list (option AbstractFileCoverage)) :
  forall b b' x, setCoverageInfos cs mode b = Some b' -> _coverage b = Some x ->
  _coverage b' = Some x /\ ~ In None cs.
Proof.
  induction cs as [|c cs IH]; intros b b' x H Hx; cbn [setCoverageInfos] in H.
  - injection H as <-. split; [exact Hx|intros []].
  - destruct (setCoverageInfo c mode b) as [b1|] eqn:E; [|discriminate].
    destruct (setCoverageInfo_step c mode b b1 E) as (S1 & S2 & _).
    destruct (IH b1 b' x H (S1 x Hx)) as [H1 H2]. split; [exact H1|].
    intros [Hc|Hin]; [|exact (H2 Hin)].
    destruct (S2 Hc) as [_ Hn]. congruence.
Qed.

(** Over any sequence of [setCoverageInfo] calls that completes, the
    widget is never cleared: a coverage that was shown stays shown. If no
    coverage is shown at the end, every call passed [undefined] and the
    widget is unchanged. Once a call has passed a coverage, a coverage is
    shown at the end, and no later call passes [undefined]: such a call
    would throw. *)
Theorem setCoverageInfos_never_clears (mode : TestingDisplayedCoveragePercent)
    (cs : list (option AbstractFileCoverage)) (b b' : Bars) :
  setCoverageInfos cs mode b = Some b' ->
  (forall x, _coverage b = Some x -> _coverage b' = Some x) /\
  (_coverage b' = None -> b' = b /\ Forall (fun c => c = None) cs) /\
  (forall l1 c l2, cs = app l1 (Some c :: l2) -> _coverage b' <> None /\ ~ In None l2).
Proof.
  revert b. induction cs as [|c cs IH]; intros b H; cbn [setCoverageInfos] in H.
  - injection H as <-. split; [auto|]. split; [split; [reflexivity|constructor]|].
    intros l1 c l2 Hl. destruct l1; discriminate.
  - destruct (setCoverageInfo c mode b) as [b1|] eqn:E; [|discriminate].
    destruct (setCoverageInfo_step c mode b b1 E) as (S1 & S2 & S3).
    destruct (IH b1 H) as (I1 & I2 & I3). split; [|split].
    + intros x Hx. exact (I1 x (S1 x Hx)).
    + intro Hn. destruct (I2 Hn) as [-> Hf]. destruct c as [y|].
      * exfalso. exact (S3 y eq_refl Hn).
      * destruct (S2 eq_refl) as [-> _]. split; [reflexivity|]. constructor; [reflexivity|exact Hf].
    + intros [|c' l1] c0 l2 Hl; injection Hl as Hc Hl.
      * subst c cs. destruct (_coverage b1) as [x|] eqn:Hx; [|exact (False_ind _ (S3 c0 eq_refl eq_refl))].
        destruct (setCoverageInfos_keeps mode l2 b1 b' x H Hx) as [K1 K2].
        rewrite K1. split; [discriminate|exact K2].
      * exact (I3 l1 c0 l2 Hl).
Qed.

Lemma setCoverageInfos_never_clears_witness :
  match setCoverageInfos [None; Some (newAbstractFileCoverage file_a); Some (newAbstractFileCoverage file_x)]
          Statement (newBars true) with
  | Some b' => _coverage b' = Some (newAbstractFileCoverage file_a)
  | None => False
  end.
Proof.
  destruct (setCoverageInfos [None; Some (newAbstractFileCoverage file_a); Some (newAbstractFileCoverage file_x)]
              Statement (newBars true)) as [b'|] eqn:E; [|vm_compute in E; discriminate].
  destruct (setCoverageInfos_never_clears Statement _ _ _ E) as (_ & _ & T3).
  destruct (T3 [None] (newAbstractFileCoverage file_a) [Some (newAbstractFileCoverage file_x)] eq_refl) as [Hn _].
  vm_compute in E. injection E as <-. reflexivity.
Defined.

(** The hovers read [_coverage], which only the first call sets, while the
    text and bars show the coverage of the latest call: after successive
    [setCoverageInfo] calls the overall text is computed from the last
    coverage and every hover from the first one. *)
Theorem hover_reads_first_coverage (localize : string -> string -> string -> string) (cmp : bool)
    (mode : TestingDisplayedCoveragePercent) (c : AbstractFileCoverage) (rest : list AbstractFileCoverage)
    (t : HoverTarget) :
  exists b', setCoverageInfos (map Some (c :: rest)) mode (newBars cmp) = Some b' /\
    overallText (elValue b') = displayPercent (calculateDisplayedStat (last (c :: rest) c) mode) /\
    onMouseEnter localize t b' =
      match hoverFactory localize t c with
      | Some h => if truthy h then Some h else None
      | None => None
      end.
Proof.
  destruct (render_ok c mode (elValue (newBars cmp))) as [e [Hr He]].
  pose (b1 := {| compact := cmp; el := Some e; _coverage := Some c; listeners := [c];
                 appended := 1; fired := 1 |}).
  assert (H0 : setCoverageInfo (Some c) mode (newBars cmp) = Some b1)
    by (unfold setCoverageInfo; cbn [_coverage newBars]; rewrite Hr; reflexivity).
  change (setCoverageInfos (map Some (c :: rest)) mode (newBars cmp))
    with (match setCoverageInfo (Some c) mode (newBars cmp) with
          | None => None | Some b' => setCoverageInfos (map Some rest) mode b' end).
  rewrite H0. destruct rest as [|c2 rest].
  - exists b1. split; [reflexivity|]. split; [exact He|reflexivity].
  - destruct (setCoverageInfos_later mode rest c2 b1 c eq_refl) as [b' (H1 & H2 & _ & _ & _ & _ & H7)].
    exists b'. split; [exact H1|]. split.
    + rewrite H7, (last_default c2 rest c2 c). reflexivity.
    + unfold onMouseEnter. rewrite H2. reflexivity.
Qed.

Lemma notifyListeners_ok (mode : TestingDisplayedCoveragePercent) (cs : list AbstractFileCoverage) :
  forall b, exists b', notifyListeners cs mode b = Some b' /\
    fired b' = (List.length cs + fired b)%nat /\ _coverage b' = _coverage b /\
    listeners b' = listeners b /\ appended b' = appended b /\
    (forall l c, cs = app l [c] ->
       overallText (elValue b') = displayPercent (calculateDisplayedStat c mode)).
Proof.
  induction cs as [|c cs IH]; intro b.
  - exists b. repeat split. intros l c Hl. destruct l; discriminate.
  - cbn [notifyListeners]. destruct (render_ok c mode (elValue b)) as [e [Hr He]]. rewrite Hr.
    destruct (IH {| compact := compact b; el := Some e; _coverage := _coverage b;
                    listeners := listeners b; appended := appended b; fired := S (fired b) |})
      as [b' (H1 & H2 & H3 & H4 & H5 & H6)].
    exists b'. split; [exact H1|]. cbn [fired _coverage listeners appended] in *.
    repeat split; auto.
    + cbn [List.length]. lia.
    + intros l c0 Hl. destruct l as [|x l].
      * cbn [app] in Hl. injection Hl as -> ->. cbn [notifyListeners] in H1. injection H1 as <-.
        exact He.
      * cbn [app] in Hl. injection Hl as -> Hl. apply (H6 l c0 Hl).
Qed.

(** On a configuration change that affects the display mode, every
    listener that [setCoverageInfo] registered renders its own coverage
    again, in registration order, and fires the change event: the text
    ends up showing the most recently registered coverage under the new
    mode. A change that does not affect the mode does nothing. *)
Theorem configurationChanged_rerenders (mode : TestingDisplayedCoveragePercent) (b : Bars) :
  configurationChanged false mode b = Some b /\
  exists b', configurationChanged true mode b = Some b' /\
    fired b' = (List.length (listeners b) + fired b)%nat /\
    _coverage b' = _coverage b /\ listeners b' = listeners b /\ appended b' = appended b /\
    (forall l c, listeners b = app l [c] ->
       overallText (elValue b') = displayPercent (calculateDisplayedStat c mode)).
Proof.
  split; [reflexivity|]. unfold configurationChanged. apply notifyListeners_ok.
Qed.

(* ------------------------------------------------------------------ *)
(** ** Further properties: the cached promise after a failure *)

(** Two callers awaiting the same failed [provideFileCoverage] request
    each run the [catch] and clear [fileCoverage]. When a third call comes
    between the two resumptions, the second [catch] clears the request that
    third call just started, so a fourth call starts yet another one: two
    requests are then pending at once, and the third caller awaits one
    that is no longer cached. *)
Theorem getAllFiles_failure_double_request (err : ProviderError) (c1 c2 c3 c4 : nat) :
  let s := sessionRun [Call c1; Call c2; Settle 0 (inr err); Resume c1; Call c3; Resume c2; Call c4]
             sessionInit in
  invocations _ _ _ s = [tt; tt; tt] /\
  promises _ _ _ s = [Some (Err err); None; None] /\
  cache _ _ _ s = Some (HPromise 2) /\
  waiting _ _ _ s = [(c3, HPromise 1); (c4, HPromise 2)].
Proof.
  intro s. unfold s, sessionRun, run. cbn [fold_left].
  assert (S1 : step unit (list IFileCoverage) PNode ProviderError tt createFileCoverage (Call c1)
      sessionInit =
    (mkState unit PNode ProviderError (Some (HPromise 0)) [None] [tt] [(c1, HPromise 0)] [])) by (reflexivity).
  rewrite S1.
  assert (S2 : step unit (list IFileCoverage) PNode ProviderError tt createFileCoverage (Call c2)
      (mkState unit PNode ProviderError (Some (HPromise 0)) [None] [tt] [(c1, HPromise 0)] []) =
    (mkState unit PNode ProviderError (Some (HPromise 0)) [None] [tt] [(c1, HPromise 0); (c2, HPromise 0)] [])) by (reflexivity).
  rewrite S2.
  assert (S3 : step unit (list IFileCoverage) PNode ProviderError tt createFileCoverage (Settle 0 (inr err))
      (mkState unit PNode ProviderError (Some (HPromise 0)) [None] [tt] [(c1, HPromise 0); (c2, HPromise 0)] []) =
    (mkState unit PNode ProviderError (Some (HPromise 0)) [Some (Err err)] [tt] [(c1, HPromise 0); (c2, HPromise 0)] [])) by (reflexivity).
  rewrite S3.
  assert (S4 : step unit (list IFileCoverage) PNode ProviderError tt createFileCoverage (Resume c1)
      (mkState unit PNode ProviderError (Some (HPromise 0)) [Some (Err err)] [tt] [(c1, HPromise 0); (c2, HPromise 0)] []) =
    (mkState unit PNode ProviderError None [Some (Err err)] [tt] [(c2, HPromise 0)] [(c1, HPromise 0, Err err)])) by (unfold step; cbn [waiting take_waiting]; rewrite Nat.eqb_refl; reflexivity).
  rewrite S4.
  assert (S5 : step unit (list IFileCoverage) PNode ProviderError tt createFileCoverage (Call c3)
      (mkState unit PNode ProviderError None [Some (Err err)] [tt] [(c2, HPromise 0)] [(c1, HPromise 0, Err err)]) =
    (mkState unit PNode ProviderError (Some (HPromise 1)) [Some (Err err); None] [tt; tt] [(c2, HPromise 0); (c3, HPromise 1)] [(c1, HPromise 0, Err err)])) by (reflexivity).
  rewrite S5.
  assert (S6 : step unit (list IFileCoverage) PNode ProviderError tt createFileCoverage (Resume c2)
      (mkState unit PNode ProviderError (Some (HPromise 1)) [Some (Err err); None] [tt; tt] [(c2, HPromise 0); (c3, HPromise 1)] [(c1, HPromise 0, Err err)]) =
    (mkState unit PNode ProviderError None [Some (Err err); None] [tt; tt] [(c3, HPromise 1)] [(c1, HPromise 0, Err err); (c2, HPromise 0, Err err)])) by (unfold step; cbn [waiting take_waiting]; rewrite Nat.eqb_refl; reflexivity).
  rewrite S6.
  assert (S7 : step unit (list IFileCoverage) PNode ProviderError tt createFileCoverage (Call c4)
      (mkState unit PNode ProviderError None [Some (Err err); None] [tt; tt] [(c3, HPromise 1)] [(c1, HPromise 0, Err err); (c2, HPromise 0, Err err)]) =
    (mkState unit PNode ProviderError (Some (HPromise 2)) [Some (Err err); None; None] [tt; tt; tt] [(c3, HPromise 1); (c4, HPromise 2)] [(c1, HPromise 0, Err err); (c2, HPromise 0, Err err)])) by (reflexivity).
  rewrite S7.
  repeat split.
Qed.
